(** * LMCache local storage backends and compactor registry

    A shallow embedding of
      - [lmcache/compactor/__init__.py]   (class [LMCacheCompactorBuilder])
      - [lmcache/storage_backend/local_backend.py]
        (classes [LMCLocalBackend] and [LMCLocalDiskBackend])
    Python objects with mutable attributes become records that are passed
    explicitly; a method is a function from the object's state to an
    [outcome]: it returns, it raises, or it never comes back because it
    waits for a [threading.Lock] that nobody will release. *)

From Stdlib Require Import Ascii String.
From stdpp Require Import gmap strings list fin_maps.

Open Scope string_scope.
Open Scope list_scope.

(** ** Outcomes of a method call *)

Inductive exn : Type :=
| KeyError
| FileNotFoundError
| RuntimeError
| SafetensorError
| Exception (msg : string).

Inductive outcome (S A : Type) : Type :=
| Ok (a : A) (s : S)
| Raise (e : exn) (s : S)
| Block (s : S).
Arguments Ok {S A} a s.
Arguments Raise {S A} e s.
Arguments Block {S A} s.

Definition state_of {S A} (o : outcome S A) : S :=
  match o with Ok _ s => s | Raise _ s => s | Block s => s end.

Definition M (S A : Type) : Type := S -> outcome S A.

Definition ret {S A} (a : A) : M S A := fun s => Ok a s.

Definition bind {S A B} (m : M S A) (k : A -> M S B) : M S B :=
  fun s => match m s with
           | Ok a s' => k a s'
           | Raise e s' => Raise e s'
           | Block s' => Block s'
           end.

Definition raise {S A} (e : exn) : M S A := fun s => Raise e s.
Definition gets {S A} (f : S -> A) : M S A := fun s => Ok (f s) s.
Definition modify {S} (f : S -> S) : M S unit := fun s => Ok tt (f s).

Declare Scope py_scope.
Delimit Scope py_scope with py.
Notation "'let*' x := m 'in' k" := (bind m (fun x => k))
  (at level 10, x pattern, m at level 100, k at level 200) : py_scope.
Notation "m ;; k" := (bind m (fun _ => k))
  (at level 100, k at level 200, right associativity) : py_scope.

(** [for x in l: f(x)] *)
Fixpoint for_each {S A} (l : list A) (f : A -> M S unit) : M S unit :=
  match l with
  | [] => ret tt
  | x :: l' => (f x ;; for_each l' f)%py
  end.

(** ** [collections.OrderedDict]

    An association list in insertion order.  A Python dict holds a key at
    most once; [od_wf] states it and every operation keeps it. *)

Module OrderedDict.
Section ordered_dict.
Context {K V : Type} `{EqDecision K}.

Definition t : Type := list (K * V).

Definition keys (d : t) : list K := d.*1.

Definition od_wf (d : t) : Prop := NoDup (keys d).

(** [d.get(k, None)] *)
Fixpoint od_get (k : K) (d : t) : option V :=
  match d with
  | [] => None
  | (k', v) :: d' => if decide (k = k') then Some v else od_get k d'
  end.

(** [k in d] *)
Definition od_contains (k : K) (d : t) : bool := bool_decide (is_Some (od_get k d)).

Definition od_delete (k : K) (d : t) : t := filter (fun kv => kv.1 ≠ k) d.

(** [d.pop(k)]: [None] stands for the [KeyError] of an absent key *)
Definition od_pop (k : K) (d : t) : option (V * t) :=
  match od_get k d with
  | Some v => Some (v, od_delete k d)
  | None => None
  end.

(** [d[k] = v]: a present key keeps its place, a new key goes last *)
Fixpoint od_set (k : K) (v : V) (d : t) : t :=
  match d with
  | [] => [(k, v)]
  | (k', v') :: d' => if decide (k = k') then (k, v) :: d' else (k', v') :: od_set k v d'
  end.

(** [d.move_to_end(k)] for a present key *)
Definition od_move_to_end (k : K) (d : t) : t :=
  match od_get k d with
  | Some v => od_delete k d ++ [(k, v)]
  | None => d
  end.

Lemma od_get_Some_elem k v d : od_get k d = Some v -> (k, v) ∈ d.
Proof.
  induction d as [|[k' v'] d IH]; simpl; [done|].
  case_decide; [intros [= ->]; subst; left | intros; right; auto].
Qed.

Lemma od_get_is_Some k d : is_Some (od_get k d) <-> k ∈ keys d.
Proof.
  unfold keys. induction d as [|[k' v'] d IH]; simpl.
  - split; [intros [? [=]] | intros H; inversion H].
  - case_decide; subst.
    + split; [intros; left | eauto].
    + rewrite IH. split; [intros; by right | intros H'; inversion H'; by subst].
Qed.

Lemma od_get_None k d : od_get k d = None <-> k ∉ keys d.
Proof. rewrite <- od_get_is_Some, eq_None_not_Some. done. Qed.

Lemma od_contains_spec k d : od_contains k d = true <-> k ∈ keys d.
Proof. unfold od_contains. rewrite bool_decide_eq_true. apply od_get_is_Some. Qed.

Lemma keys_delete k d : keys (od_delete k d) = filter (fun x => x ≠ k) (keys d).
Proof.
  unfold keys, od_delete. induction d as [|[k' v'] d IH]; [done|].
  cbn. destruct (decide (k' ≠ k)); cbn; [f_equal|]; exact IH.
Qed.

Lemma od_get_delete_eq k d : od_get k (od_delete k d) = None.
Proof. apply od_get_None. rewrite keys_delete, list_elem_of_filter. tauto. Qed.

Lemma od_get_delete_ne k k' d : k ≠ k' -> od_get k' (od_delete k d) = od_get k' d.
Proof.
  intros Hne. unfold od_delete. induction d as [|[k0 v0] d IH]; [done|].
  cbn. destruct (decide (k0 ≠ k)) as [Hk0|Hk0]; cbn.
  - case_decide; [done | apply IH].
  - apply dec_stable in Hk0. subst k0. rewrite decide_False by congruence. apply IH.
Qed.

Lemma od_get_set_eq k v d : od_get k (od_set k v d) = Some v.
Proof.
  induction d as [|[k' v'] d IH]; simpl.
  - by rewrite decide_True.
  - case_decide; simpl; [by rewrite decide_True | by rewrite decide_False].
Qed.

Lemma od_get_set_ne k k' v d : k ≠ k' -> od_get k' (od_set k v d) = od_get k' d.
Proof.
  intros Hne. induction d as [|[k0 v0] d IH]; simpl.
  - by rewrite decide_False.
  - case_decide as Hk0; simpl.
    + subst k0. rewrite !decide_False by congruence. done.
    + case_decide; [done | apply IH].
Qed.

(** Overwriting a present key does not move it. *)
Lemma keys_set_present k v d : k ∈ keys d -> keys (od_set k v d) = keys d.
Proof.
  unfold keys. induction d as [|[k' v'] d IH]; simpl; [intros H; inversion H|].
  intros Hin. case_decide; simpl; [by subst|].
  f_equal. apply IH. inversion Hin; by subst.
Qed.

(** A new key goes to the most recently used end. *)
Lemma keys_set_absent k v d : k ∉ keys d -> keys (od_set k v d) = keys d ++ [k].
Proof.
  unfold keys. induction d as [|[k' v'] d IH]; simpl; [done|].
  intros Hnin. rewrite not_elem_of_cons in Hnin. destruct Hnin as [Hne Hnin].
  rewrite decide_False by done. simpl. f_equal. by apply IH.
Qed.

Lemma od_wf_delete k d : od_wf d -> od_wf (od_delete k d).
Proof. unfold od_wf. rewrite keys_delete. apply NoDup_filter. Qed.

Lemma od_wf_set k v d : od_wf d -> od_wf (od_set k v d).
Proof.
  unfold od_wf. intros Hwf. destruct (decide (k ∈ keys d)) as [Hin|Hnin].
  - by rewrite keys_set_present.
  - rewrite keys_set_absent by done. apply NoDup_app. repeat split; [done| |apply NoDup_singleton].
    intros x Hx Hx'. apply list_elem_of_singleton in Hx'. by subst.
Qed.

Lemma od_get_move_to_end k k' d : od_get k' (od_move_to_end k d) = od_get k' d.
Proof.
  unfold od_move_to_end. destruct (od_get k d) as [v|] eqn:Hk; [|done].
  assert (Happ : forall (d1 d2 : t), od_get k' (d1 ++ d2) =
                   match od_get k' d1 with Some x => Some x | None => od_get k' d2 end).
  { induction d1 as [|[k0 v0] d1 IH]; intros d2; simpl; [done|]. case_decide; [done | apply IH]. }
  rewrite Happ. destruct (decide (k = k')) as [->|Hne].
  - rewrite od_get_delete_eq. simpl. by rewrite decide_True.
  - rewrite od_get_delete_ne by done. destruct (od_get k' d); [done|].
    simpl. by rewrite decide_False.
Qed.

Lemma od_wf_move_to_end k d : od_wf d -> od_wf (od_move_to_end k d).
Proof.
  unfold od_move_to_end. destruct (od_get k d) as [v|] eqn:Hk; [|done].
  intros Hwf. unfold od_wf, keys. rewrite fmap_app. apply NoDup_app. repeat split.
  - by apply od_wf_delete.
  - intros x Hx Hx'. simpl in Hx'. apply list_elem_of_singleton in Hx'. subst x.
    fold (keys (od_delete k d)) in Hx. rewrite keys_delete, list_elem_of_filter in Hx. tauto.
  - apply NoDup_singleton.
Qed.
End ordered_dict.
Arguments t : clear implicits.
End OrderedDict.
Import OrderedDict.

(** * The compactor registry: [lmcache/compactor/__init__.py] *)

Module LMCacheCompactorBuilder.

(** The two compactor classes the builder can construct. *)
Inductive CompactorClass : Type := H2OCompactor | SinkCompactor.

Global Instance CompactorClass_eq_dec : EqDecision CompactorClass.
Proof. solve_decision. Defined.

(** A compactor object: its class and its identity.  Two calls of a
    constructor give two objects; [oid] tells them apart, as Python's
    [is] does. *)
Record BaseLocalCompactor : Type := {
  cls_of : CompactorClass;
  oid : nat
}.

Global Instance BaseLocalCompactor_eq_dec : EqDecision BaseLocalCompactor.
Proof. solve_decision. Defined.

(** The class attribute [_instances] and the allocator's next free
    identity. *)
Record Registry : Type := {
  _instances : gmap string BaseLocalCompactor;
  next_oid : nat
}.

Definition empty_registry : Registry := {| _instances := ∅; next_oid := 0 |}.

(** Modelled from the spec: the constructors [H2OCompactor()] and
    [SinkCompactor()], whose classes are not among the sources; a call
    gives a new instance of the named policy variant (4.5). *)
Definition construct (c : CompactorClass) : M Registry BaseLocalCompactor :=
  fun r => Ok {| cls_of := c; oid := next_oid r |}
              {| _instances := _instances r; next_oid := S (next_oid r) |}.

(** [cls._instances[instance_id] = compactor] *)
Definition register (instance_id : string) (c : BaseLocalCompactor) : M Registry unit :=
  modify (fun r => {| _instances := <[instance_id := c]> (_instances r);
                      next_oid := next_oid r |}).

Definition get_or_create (instance_id : string) (compactor_type : string)
  : M Registry BaseLocalCompactor :=
  (let* present := gets (fun r => bool_decide (is_Some (_instances r !! instance_id))) in
   if negb present then
     let* compactor :=
       (if String.eqb compactor_type "H2O" then construct H2OCompactor
        else if String.eqb compactor_type "Sink" then construct SinkCompactor
        else raise (Exception ("Compactor type " +:+ compactor_type +:+ " not supported"))) in
     register instance_id compactor ;;
     ret compactor
   else
     fun r => match _instances r !! instance_id with
              | Some c => Ok c r
              | None => Raise KeyError r
              end)%py.

(** [cls._instances.get(instance_id)] *)
Definition get (instance_id : string) : M Registry (option BaseLocalCompactor) :=
  gets (fun r => _instances r !! instance_id).

Definition supported (compactor_type : string) : Prop :=
  compactor_type = "H2O" \/ compactor_type = "Sink".

Lemma get_or_create_registered r id ty c :
  _instances r !! id = Some c -> get_or_create id ty r = Ok c r.
Proof.
  intros Hc. unfold get_or_create, bind, gets.
  rewrite bool_decide_eq_true_2 by (rewrite Hc; eauto). simpl. by rewrite Hc.
Qed.

Lemma get_or_create_Ok_lookup r id ty c r' :
  get_or_create id ty r = Ok c r' -> _instances r' !! id = Some c.
Proof.
  unfold get_or_create, bind, gets.
  destruct (_instances r !! id) as [c0|] eqn:Hc0.
  - rewrite bool_decide_eq_true_2 by eauto. simpl. rewrite Hc0. by intros [= <- <-].
  - rewrite bool_decide_eq_false_2 by (intros [? [=]]). simpl.
    destruct (String.eqb ty "H2O"); [|destruct (String.eqb ty "Sink")];
      simpl; try discriminate;
      unfold register, modify, ret; intros [= <- <-]; simpl; apply lookup_insert_eq.
Qed.

(** The registry at a later time: after any number of further calls of
    [get_or_create], whatever they return ([get] changes nothing). *)
Inductive later : Registry -> Registry -> Prop :=
| later_now r : later r r
| later_call r1 r2 id ty : later r1 r2 -> later r1 (state_of (get_or_create id ty r2)).

Lemma get_or_create_keeps r id c id' ty :
  _instances r !! id = Some c ->
  _instances (state_of (get_or_create id' ty r)) !! id = Some c.
Proof.
  intros Hc. unfold get_or_create, bind, gets.
  destruct (_instances r !! id') as [c'|] eqn:Hc'.
  - rewrite bool_decide_eq_true_2 by eauto. simpl. by rewrite Hc'.
  - rewrite bool_decide_eq_false_2 by (intros [? [=]]). simpl.
    assert (id' ≠ id) by congruence.
    destruct (String.eqb ty "H2O"); [|destruct (String.eqb ty "Sink")]; simpl; try done;
      by rewrite lookup_insert_ne.
Qed.

Lemma later_keeps r1 r2 id c :
  later r1 r2 -> _instances r1 !! id = Some c -> _instances r2 !! id = Some c.
Proof. induction 1; intros Hc; [done|]. apply get_or_create_keeps. auto. Qed.

(** C8: once [get_or_create] has returned an instance for an id, every
    later [get_or_create] on that id returns that very instance, whatever
    policy name it is given (supported or not), raises nothing and leaves
    the registry as it is; [get] returns the same instance; and [get]
    never changes the registry. *)
Theorem registry_get_or_create_idempotent :
  forall (r r1 r2 : Registry) (instance_id p1 : string) (c : BaseLocalCompactor),
    get_or_create instance_id p1 r = Ok c r1 ->
    later r1 r2 ->
    (forall p2, get_or_create instance_id p2 r2 = Ok c r2) /\
    get instance_id r2 = Ok (Some c) r2 /\
    (forall r0 id, state_of (get id r0) = r0).
Proof.
  intros r r1 r2 id p1 c Hfirst Hlater.
  apply get_or_create_Ok_lookup in Hfirst. eapply later_keeps in Hfirst; [|exact Hlater].
  split; [|split].
  - intros p2. by apply get_or_create_registered.
  - unfold get, gets. by rewrite Hfirst.
  - reflexivity.
Qed.

Lemma registry_get_or_create_idempotent_witness :
  exists c r1,
    get_or_create "x" "H2O" empty_registry = Ok c r1 /\
    get_or_create "x" "Other" r1 = Ok c r1 /\
    get "x" r1 = Ok (Some c) r1.
Proof.
  eexists _, _. split; [vm_compute; reflexivity|].
  pose proof (registry_get_or_create_idempotent empty_registry _ _ "x" "H2O" _
                eq_refl (later_now _)) as (H2 & Hget & _).
  split; [apply (H2 "Other") | exact Hget].
Defined.

(** C9: for an id that is not registered and a policy name that is
    neither "H2O" nor "Sink", [get_or_create] raises, the exception
    reaches the caller with the registry exactly as it was, and a later
    [get] of that id returns [None]. *)
Theorem registry_unsupported_policy_raises :
  forall (r : Registry) (instance_id compactor_type : string),
    _instances r !! instance_id = None ->
    ~ supported compactor_type ->
    get_or_create instance_id compactor_type r =
      Raise (Exception ("Compactor type " +:+ compactor_type +:+ " not supported")) r /\
    get instance_id r = Ok None r.
Proof.
  intros r id ty Hnone Hty. unfold supported in Hty. split.
  - unfold get_or_create, bind, gets.
    rewrite bool_decide_eq_false_2 by (rewrite Hnone; intros [? [=]]). simpl.
    destruct (String.eqb_spec ty "H2O"); [tauto|].
    destruct (String.eqb_spec ty "Sink"); [tauto|]. reflexivity.
  - unfold get, gets. by rewrite Hnone.
Qed.

Lemma registry_unsupported_policy_raises_witness :
  get_or_create "x" "LRU" empty_registry =
    Raise (Exception "Compactor type LRU not supported") empty_registry /\
  get "x" empty_registry = Ok None empty_registry.
Proof.
  apply (registry_unsupported_policy_raises empty_registry "x" "LRU").
  - reflexivity.
  - unfold supported. intros [H|H]; discriminate H.
Defined.

End LMCacheCompactorBuilder.


(** * Payloads, admission status and the evictor *)

(** A [torch.Tensor] as far as the backends look at it: its content and
    the device it lives on.  [t.to(dev)] copies the content to [dev]. *)
Record Tensor : Type := {
  data : list Z;
  device_of : string
}.

Definition to (t : Tensor) (dev : string) : Tensor :=
  {| data := data t; device_of := dev |}.

Definition content_equal (a b : Tensor) : Prop := data a = data b.

(** Modelled from the spec: the enum [PutStatus] of
    [lmcache/storage_backend/evictor/base_evictor.py], which is not among
    the sources.  The spec gives it two values, Admitted and Rejected; the
    backends name the second one [PutStatus.ILLEGAL]. *)
Inductive PutStatus : Type := LEGAL | ILLEGAL.

Global Instance PutStatus_eq_dec : EqDecision PutStatus.
Proof. solve_decision. Defined.

(** Modelled from the spec: the evictor of
    [lmcache/storage_backend/evictor], which is not among the sources.
    The spec (4.2) gives it two entry points:
    [admit_on_put(catalog, new_payload) -> (evict_keys, status)], called
    [update_on_put] by the backends, and [note_access(key, catalog)],
    called [update_on_get], which repositions [key] in the catalog.  The
    evictor is an object, so both thread its own state [EvState]. *)
Record Evictor (K L : Type) : Type := {
  EvState : Type;
  update_on_put : OrderedDict.t K L -> Tensor -> EvState -> (list K * PutStatus) * EvState;
  update_on_get : K -> OrderedDict.t K L -> EvState -> OrderedDict.t K L * EvState
}.
Arguments EvState {K L} _.
Arguments update_on_put {K L} _ _ _ _.
Arguments update_on_get {K L} _ _ _ _.

(** Modelled from the spec: what the spec promises of every evictor.
    A Rejected decision comes with an empty eviction list and leaves the
    eviction state as it was (4.2, 8); an Admitted decision names keys of
    the catalog, each once (4.2: "the minimal ordered set of keys to
    evict"); [note_access] only repositions, it neither adds, drops nor
    changes an entry (4.2). *)
Class EvictorContract {K L : Type} `{EqDecision K} (ev : Evictor K L) : Prop := {
  rejected_untouched : forall d v s ks s',
    update_on_put ev d v s = (ks, ILLEGAL, s') -> ks = [] /\ s' = s;
  admitted_keys : forall d v s ks s',
    od_wf d -> update_on_put ev d v s = (ks, LEGAL, s') ->
    NoDup ks /\ (forall k, k ∈ ks -> k ∈ keys d);
  access_repositions : forall k d s k',
    od_get k' (update_on_get ev k d s).1 = od_get k' d
}.

(** Modelled from the spec: the LRU variant (4.2), the evictor both
    backends construct ([LRUEvictor()]).  Recency order is the catalog's
    own order.  The capacity metric is a parameter: [capacity] is the
    budget, [size_of] measures a new payload and [stored_size] an entry of
    the catalog.  A payload that alone exceeds the budget is Rejected with
    an empty list; otherwise the least recently used keys are listed,
    oldest first, until the payload fits.  An access moves the key to the
    most recently used end. *)
Module LRU.
Section lru.
Context {K L : Type} `{EqDecision K}.
Context (capacity : N) (size_of : Tensor -> N) (stored_size : L -> N).

(** Modelled from the spec: the budget in use, the sizes of the entries
    of the catalog added up. *)
Definition used_size (d : OrderedDict.t K L) : N :=
  foldr (fun kv acc => (stored_size kv.2 + acc)%N) 0%N d.

(** Modelled from the spec: "the minimal ordered set of keys to evict
    (oldest-first) to make room" (4.2). *)
Fixpoint evict_oldest (d : OrderedDict.t K L) (used need : N) : list K :=
  if decide (need + used ≤ capacity)%N then []
  else match d with
       | [] => []
       | (k, l) :: d' => k :: evict_oldest d' (used - stored_size l)%N need
       end.

(** Modelled from the spec: [LRUEvictor], whose source is not among the
    sources; [update_on_put] is the spec's [admit_on_put] and
    [update_on_get] its [note_access] (4.2). *)
Definition LRUEvictor : Evictor K L := {|
  EvState := unit;
  update_on_put := fun d v s =>
    if decide (capacity < size_of v)%N then ([], ILLEGAL, s)
    else (evict_oldest d (used_size d) (size_of v), LEGAL, s);
  update_on_get := fun k d s => (od_move_to_end k d, s)
|}.

Lemma evict_oldest_sublist d used need : sublist (evict_oldest d used need) (keys d).
Proof.
  revert used. induction d as [|[k l] d IH]; intros used; simpl.
  - case_decide; constructor.
  - case_decide; [apply sublist_nil_l|]. unfold keys. simpl. apply sublist_skip, IH.
Qed.

Lemma LRUEvictor_admitted d v s ks s' :
  od_wf d -> update_on_put LRUEvictor d v s = (ks, LEGAL, s') ->
  NoDup ks /\ (forall k, k ∈ ks -> k ∈ keys d).
Proof.
  intros Hwf. simpl. case_decide; [discriminate|].
  intros [= <- <-]. pose proof (evict_oldest_sublist d (used_size d) (size_of v)) as Hsub.
  split.
  - eapply sublist_NoDup; eauto.
  - intros k Hk. eapply elem_of_sublist; eauto.
Qed.

Lemma LRUEvictor_rejected d v s ks s' :
  update_on_put LRUEvictor d v s = (ks, ILLEGAL, s') -> ks = [] /\ s' = s.
Proof. simpl. case_decide; [by intros [= <- <-] | discriminate]. Qed.

Lemma LRUEvictor_access k d s k' :
  od_get k' (update_on_get LRUEvictor k d s).1 = od_get k' d.
Proof. simpl. apply od_get_move_to_end. Qed.

Global Instance LRUEvictor_contract : EvictorContract LRUEvictor.
Proof.
  split; [apply LRUEvictor_rejected | apply LRUEvictor_admitted | apply LRUEvictor_access].
Qed.

End lru.
End LRU.


(** * The memory backend: class [LMCLocalBackend] *)

Module LMCLocalBackend.
Section backend.
Context {Key : Type} `{EqDecision Key}.
Context (ev : Evictor Key Tensor).

(** What travels on [put_queue]. *)
Inductive QItem : Type :=
| Item (key : Key) (value : Tensor)
| LocalBackendEndSignal.

(** The attributes of the object.  [update_lock] is [true] while the
    [threading.Lock] is held; [put_thread_alive] is
    [put_thread.is_alive()]; [put_queue] holds the items the worker has
    not taken yet, oldest first. *)
Record Backend : Type := mkBackend {
  dict : OrderedDict.t Key Tensor;
  device : string;
  dst_device : string;
  use_pin_memory : bool;
  put_queue : list QItem;
  put_thread_alive : bool;
  update_lock : bool;
  evictor : EvState ev
}.

Definition set_dict (d : OrderedDict.t Key Tensor) (st : Backend) : Backend :=
  mkBackend d (device st) (dst_device st) (use_pin_memory st) (put_queue st)
            (put_thread_alive st) (update_lock st) (evictor st).
Definition set_put_queue (q : list QItem) (st : Backend) : Backend :=
  mkBackend (dict st) (device st) (dst_device st) (use_pin_memory st) q
            (put_thread_alive st) (update_lock st) (evictor st).
Definition set_put_thread_alive (b : bool) (st : Backend) : Backend :=
  mkBackend (dict st) (device st) (dst_device st) (use_pin_memory st) (put_queue st)
            b (update_lock st) (evictor st).
Definition set_update_lock (b : bool) (st : Backend) : Backend :=
  mkBackend (dict st) (device st) (dst_device st) (use_pin_memory st) (put_queue st)
            (put_thread_alive st) b (evictor st).
Definition set_evictor (e : EvState ev) (st : Backend) : Backend :=
  mkBackend (dict st) (device st) (dst_device st) (use_pin_memory st) (put_queue st)
            (put_thread_alive st) (update_lock st) e.

(** [__init__]: an empty catalog, the worker started, the lock free. *)
Definition init (local_device : string) (e0 : EvState ev) : Backend :=
  mkBackend [] local_device "cuda" false [] true false e0.

(** [self.update_lock.acquire()]: a held lock is waited for. *)
Definition acquire : M Backend unit :=
  fun st => if update_lock st then Block st else Ok tt (set_update_lock true st).

(** [self.update_lock.release()]: releasing a free lock is a
    [RuntimeError]. *)
Definition release : M Backend unit :=
  fun st => if update_lock st then Ok tt (set_update_lock false st) else Raise RuntimeError st.

(** [self.evictor.update_on_put(self.dict, kv_chunk_local)] *)
Definition evictor_update_on_put (kv : Tensor) : M Backend (list Key * PutStatus) :=
  fun st => let '(r, e') := update_on_put ev (dict st) kv (evictor st) in
            Ok r (set_evictor e' st).

(** [self.evictor.update_on_get(key, self.dict)] *)
Definition evictor_update_on_get (key : Key) : M Backend unit :=
  fun st => let '(d', e') := update_on_get ev key (dict st) (evictor st) in
            Ok tt (set_evictor e' (set_dict d' st)).

Definition contains (key : Key) : M Backend bool :=
  gets (fun st => od_contains key (dict st)).

(** [self.dict.pop(key)] *)
Definition remove (key : Key) : M Backend unit :=
  fun st => match od_pop key (dict st) with
            | Some (_, d') => Ok tt (set_dict d' st)
            | None => Raise KeyError st
            end.

(** Both branches of [if self.use_pin_memory] give the chunk moved to
    [self.device]. *)
Definition to_local (kv_chunk : Tensor) : M Backend Tensor :=
  gets (fun st => if use_pin_memory st then to kv_chunk (device st)
                  else to kv_chunk (device st)).

Definition put_nonblocking (key : Key) (kv_chunk : Tensor) : M Backend unit :=
  (let* kv_chunk_local := to_local kv_chunk in
   acquire ;;
   let* (evict_keys, put_status) := evictor_update_on_put kv_chunk_local in
   if decide (put_status = ILLEGAL) then ret tt
   else
     for_each evict_keys remove ;;
     modify (fun st => set_dict (od_set key kv_chunk_local (dict st)) st) ;;
     release)%py.

Definition put_blocking (key : Key) (kv_chunk : Tensor) : M Backend unit :=
  (let* kv_chunk_local := to_local kv_chunk in
   let* (evict_keys, put_status) := evictor_update_on_put kv_chunk_local in
   if decide (put_status = ILLEGAL) then ret tt
   else
     for_each evict_keys remove ;;
     modify (fun st => set_dict (od_set key kv_chunk_local (dict st)) st))%py.

Definition put (key : Key) (kv_chunk : Tensor) (blocking : bool) : M Backend unit :=
  if blocking then put_blocking key kv_chunk
  else modify (fun st => set_put_queue (put_queue st ++ [Item key kv_chunk]) st).

Definition get (key : Key) : M Backend (option Tensor) :=
  (let* kv_chunk := gets (fun st => od_get key (dict st)) in
   match kv_chunk with
   | Some t =>
       acquire ;;
       evictor_update_on_get key ;;
       release ;;
       let* dst := gets dst_device in
       ret (Some (to t dst))
   | None => ret None
   end)%py.

(** How a run of the worker thread ends. *)
Inductive WorkerEnd : Type :=
| Exited (st : Backend)            (* took the End Signal: [break] *)
| Idle (st : Backend)              (* queue empty: waits in [put_queue.get()] *)
| Died (e : exn) (st : Backend)    (* an item raised: the thread is gone *)
| Stuck (st : Backend).            (* an item waits for the lock for ever *)

Definition worker_state (w : WorkerEnd) : Backend :=
  match w with Exited st | Idle st | Died _ st | Stuck st => st end.

(** [put_worker]: the [while True] loop over the items of the queue. *)
Fixpoint put_worker_loop (q : list QItem) (st : Backend) : WorkerEnd :=
  match q with
  | [] => Idle (set_put_queue [] st)
  | LocalBackendEndSignal :: q' => Exited (set_put_thread_alive false (set_put_queue q' st))
  | Item key value :: q' =>
      match put_nonblocking key value (set_put_queue q' st) with
      | Ok _ st' => put_worker_loop q' st'
      | Raise e st' => Died e (set_put_thread_alive false st')
      | Block st' => Stuck st'
      end
  end.

Definition put_worker (st : Backend) : WorkerEnd := put_worker_loop (put_queue st) st.

(** [self.put_thread.join()]: returns once the worker thread has ended. *)
Definition join : M Backend unit :=
  fun st => match put_worker st with
            | Exited st' => Ok tt st'
            | Died _ st' => Ok tt st'
            | Idle st' => Block st'
            | Stuck st' => Block st'
            end.

Definition close : M Backend unit :=
  (let* alive := gets put_thread_alive in
   if alive then
     modify (fun st => set_put_queue (put_queue st ++ [LocalBackendEndSignal]) st) ;;
     join
   else ret tt)%py.

End backend.
End LMCLocalBackend.


(** * The disk backend: class [LMCLocalDiskBackend] *)

(** [s.replace(old, new)] for one-character [old] and [new]. *)
Fixpoint replace (old new : ascii) (s : string) : string :=
  match s with
  | EmptyString => EmptyString
  | String c s' => String (if Ascii.eqb c old then new else c) (replace old new s')
  end.

Module LMCLocalDiskBackend.
Section backend.
Context {Key : Type} `{EqDecision Key}.
Context (to_string : Key -> string).
Context (ev : Evictor Key string).

Inductive QItem : Type :=
| Item (key : Key) (value : Tensor)
| LocalBackendEndSignal.

(** The attributes of the object, and [files]: the safetensors files of
    the file system, by path; a file maps field names to contents. *)
Record Backend : Type := mkBackend {
  dict : OrderedDict.t Key string;
  path : string;
  dst_device : string;
  put_queue : list QItem;
  put_thread_alive : bool;
  update_lock : bool;
  evictor : EvState ev;
  files : gmap string (gmap string (list Z))
}.

Definition set_dict (d : OrderedDict.t Key string) (st : Backend) : Backend :=
  mkBackend d (path st) (dst_device st) (put_queue st) (put_thread_alive st)
            (update_lock st) (evictor st) (files st).
Definition set_put_queue (q : list QItem) (st : Backend) : Backend :=
  mkBackend (dict st) (path st) (dst_device st) q (put_thread_alive st)
            (update_lock st) (evictor st) (files st).
Definition set_put_thread_alive (b : bool) (st : Backend) : Backend :=
  mkBackend (dict st) (path st) (dst_device st) (put_queue st) b
            (update_lock st) (evictor st) (files st).
Definition set_update_lock (b : bool) (st : Backend) : Backend :=
  mkBackend (dict st) (path st) (dst_device st) (put_queue st) (put_thread_alive st)
            b (evictor st) (files st).
Definition set_evictor (e : EvState ev) (st : Backend) : Backend :=
  mkBackend (dict st) (path st) (dst_device st) (put_queue st) (put_thread_alive st)
            (update_lock st) e (files st).
Definition set_files (fs : gmap string (gmap string (list Z))) (st : Backend) : Backend :=
  mkBackend (dict st) (path st) (dst_device st) (put_queue st) (put_thread_alive st)
            (update_lock st) (evictor st) fs.

(** [__init__] over a directory that holds the files [fs]. *)
Definition init (local_device : string) (fs : gmap string (gmap string (list Z)))
    (e0 : EvState ev) : Backend :=
  mkBackend [] local_device "cuda" [] true false e0 fs.

Definition acquire : M Backend unit :=
  fun st => if update_lock st then Block st else Ok tt (set_update_lock true st).

Definition release : M Backend unit :=
  fun st => if update_lock st then Ok tt (set_update_lock false st) else Raise RuntimeError st.

Definition evictor_update_on_put (kv : Tensor) : M Backend (list Key * PutStatus) :=
  fun st => let '(r, e') := update_on_put ev (dict st) kv (evictor st) in
            Ok r (set_evictor e' st).

Definition evictor_update_on_get (key : Key) : M Backend unit :=
  fun st => let '(d', e') := update_on_get ev key (dict st) (evictor st) in
            Ok tt (set_evictor e' (set_dict d' st)).

(** [os.remove(p)] *)
Definition os_remove (p : string) : M Backend unit :=
  fun st => match files st !! p with
            | Some _ => Ok tt (set_files (delete p (files st)) st)
            | None => Raise FileNotFoundError st
            end.

(** [save_file({"kv_chunk": kv_chunk}, p)] *)
Definition save_file (kv_chunk : Tensor) (p : string) : M Backend unit :=
  modify (fun st => set_files (<[p := {["kv_chunk" := data kv_chunk]}]> (files st)) st).

(** [with safe_open(p, framework="pt", device=dev) as f:
       return f.get_tensor(field)] *)
Definition safe_open_get_tensor (p field dev : string) : M Backend Tensor :=
  fun st => match files st !! p with
            | None => Raise FileNotFoundError st
            | Some f => match f !! field with
                        | None => Raise SafetensorError st
                        | Some bytes => Ok {| data := bytes; device_of := dev |} st
                        end
            end.

(** [self.dict[key]] *)
Definition dict_getitem (key : Key) : M Backend string :=
  fun st => match od_get key (dict st) with
            | Some p => Ok p st
            | None => Raise KeyError st
            end.

Definition contains (key : Key) : M Backend bool :=
  gets (fun st => od_contains key (dict st)).

Definition sanitize (s : string) : string := replace "/"%char "-"%char s.

Definition _key_to_path (key : Key) (st : Backend) : string :=
  (path st +:+ sanitize (to_string key)) +:+ ".pt".

Definition remove (key : Key) : M Backend unit :=
  (acquire ;;
   let* p := dict_getitem key in
   modify (fun st => set_dict (od_delete key (dict st)) st) ;;
   release ;;
   os_remove p)%py.

Definition put_blocking (key : Key) (kv_chunk : Tensor) : M Backend unit :=
  (let* p := gets (_key_to_path key) in
   let* (evict_keys, put_status) := evictor_update_on_put kv_chunk in
   if decide (put_status = ILLEGAL) then ret tt
   else
     for_each evict_keys remove ;;
     save_file kv_chunk p ;;
     acquire ;;
     modify (fun st => set_dict (od_set key p (dict st)) st) ;;
     release)%py.

Definition put (key : Key) (kv_chunk : Tensor) (blocking : bool) : M Backend unit :=
  if blocking then put_blocking key kv_chunk
  else modify (fun st => set_put_queue (put_queue st ++ [Item key kv_chunk]) st).

Definition get (key : Key) : M Backend (option Tensor) :=
  (let* present := contains key in
   if negb present then ret None
   else
     let* p := dict_getitem key in
     evictor_update_on_get key ;;
     let* dst := gets dst_device in
     let* t := safe_open_get_tensor p "kv_chunk" dst in
     ret (Some t))%py.

Inductive WorkerEnd : Type :=
| Exited (st : Backend)
| Idle (st : Backend)
| Died (e : exn) (st : Backend)
| Stuck (st : Backend).

Fixpoint put_worker_loop (q : list QItem) (st : Backend) : WorkerEnd :=
  match q with
  | [] => Idle (set_put_queue [] st)
  | LocalBackendEndSignal :: q' => Exited (set_put_thread_alive false (set_put_queue q' st))
  | Item key value :: q' =>
      match put_blocking key value (set_put_queue q' st) with
      | Ok _ st' => put_worker_loop q' st'
      | Raise e st' => Died e (set_put_thread_alive false st')
      | Block st' => Stuck st'
      end
  end.

Definition put_worker (st : Backend) : WorkerEnd := put_worker_loop (put_queue st) st.

Definition join : M Backend unit :=
  fun st => match put_worker st with
            | Exited st' => Ok tt st'
            | Died _ st' => Ok tt st'
            | Idle st' => Block st'
            | Stuck st' => Block st'
            end.

Definition close : M Backend unit :=
  (let* alive := gets put_thread_alive in
   if alive then
     modify (fun st => set_put_queue (put_queue st ++ [LocalBackendEndSignal]) st) ;;
     join
   else ret tt)%py.

End backend.
End LMCLocalDiskBackend.


(** * Concrete backends

    Keys that are their own canonical string, and LRU evictors with a
    small budget: the memory backend counts the elements of a payload,
    the disk backend counts entries. *)

Module Scenario.

Definition elements (t : Tensor) : N := N.of_nat (length (data t)).

(** A memory evictor with room for four elements. *)
Definition mem_evictor : Evictor string Tensor := LRU.LRUEvictor 4 elements elements.

(** A disk evictor with room for three entries, and one with room for none. *)
Definition disk_evictor : Evictor string string :=
  LRU.LRUEvictor 3 (fun _ => 1%N) (fun _ => 1%N).
Definition disk_evictor_full : Evictor string string :=
  LRU.LRUEvictor 0 (fun _ => 1%N) (fun _ => 1%N).

Definition canonical (k : string) : string := k.

Definition small : Tensor := {| data := [1; 2]%Z; device_of := "cuda" |}.
Definition other : Tensor := {| data := [3; 4]%Z; device_of := "cuda" |}.
Definition big : Tensor := {| data := [1; 2; 3; 4; 5]%Z; device_of := "cuda" |}.
Definition tiny : Tensor := {| data := [7]%Z; device_of := "cuda" |}.

Definition mem0 : LMCLocalBackend.Backend mem_evictor := LMCLocalBackend.init mem_evictor "cpu" tt.
Definition disk0 : LMCLocalDiskBackend.Backend disk_evictor :=
  LMCLocalDiskBackend.init disk_evictor "/tmp/cache/" ∅ tt.
Definition disk0_full : LMCLocalDiskBackend.Backend disk_evictor_full :=
  LMCLocalDiskBackend.init disk_evictor_full "/tmp/cache/" ∅ tt.


(** Two entries in each backend, ["a"] the older one. *)
Definition mem_ab : LMCLocalBackend.Backend mem_evictor :=
  state_of (LMCLocalBackend.put mem_evictor "b" tiny true
    (state_of (LMCLocalBackend.put mem_evictor "a" tiny true mem0))).
Definition disk_ab : LMCLocalDiskBackend.Backend disk_evictor :=
  state_of (LMCLocalDiskBackend.put canonical disk_evictor "b" tiny true
    (state_of (LMCLocalDiskBackend.put canonical disk_evictor "a" tiny true disk0))).

(** The memory backend with two queued puts: the first payload is larger
    than the whole budget. *)
Definition mem_queued : LMCLocalBackend.Backend mem_evictor :=
  state_of (LMCLocalBackend.put mem_evictor "k2" small false
    (state_of (LMCLocalBackend.put mem_evictor "k1" big false mem0))).

End Scenario.


(** * Facts about the catalog under a run of evictions *)

Section evictions.
Context {K V : Type} `{EqDecision K}.
Implicit Types (d : OrderedDict.t K V) (ks : list K).

(** The catalog after [for k in ks: pop k]. *)
Definition delete_all ks d : OrderedDict.t K V := foldl (fun d k => od_delete k d) d ks.

Lemma keys_delete_all ks d :
  keys (delete_all ks d) = filter (fun x => x ∉ ks) (keys d).
Proof.
  unfold delete_all. revert d. induction ks as [|k ks IH]; intros d; simpl.
  - generalize (keys d). intros l. induction l as [|x l IHl]; [done|].
    rewrite filter_cons_True by apply not_elem_of_nil. by rewrite <- IHl.
  - rewrite IH, keys_delete, list_filter_filter. apply list_filter_iff.
    intros x. rewrite not_elem_of_cons. tauto.
Qed.

Lemma od_get_delete_all ks d k :
  k ∉ ks -> od_get k (delete_all ks d) = od_get k d.
Proof.
  unfold delete_all. revert d. induction ks as [|k0 ks IH]; intros d Hk; simpl; [done|].
  rewrite not_elem_of_cons in Hk. destruct Hk as [Hne Hk].
  rewrite IH by done. apply od_get_delete_ne. congruence.
Qed.

Lemma od_wf_delete_all ks d : od_wf d -> od_wf (delete_all ks d).
Proof.
  unfold delete_all. revert d. induction ks as [|k0 ks IH]; intros d Hwf; simpl; [done|].
  apply IH. by apply od_wf_delete.
Qed.

End evictions.

(** * Facts about the memory backend *)

Module MemoryFacts.
Import LMCLocalBackend.
Section facts.
Context {Key : Type} `{EqDecision Key}.
Context (ev : Evictor Key Tensor).
Implicit Types (st : Backend ev) (k : Key) (v : Tensor).

Lemma mem_set_evictor_same st : set_evictor ev (evictor ev st) st = st.
Proof. by destruct st. Qed.

Lemma mem_remove_Ok k st st' :
  remove ev k st = Ok tt st' ->
  k ∈ keys (dict ev st) /\ st' = set_dict ev (od_delete k (dict ev st)) st.
Proof.
  unfold remove, od_pop. destruct (od_get k (dict ev st)) as [t|] eqn:Hk; [|discriminate].
  intros [= <-]. split; [|done]. apply od_get_is_Some. eauto.
Qed.

Lemma remove_present k st :
  k ∈ keys (dict ev st) -> remove ev k st = Ok tt (set_dict ev (od_delete k (dict ev st)) st).
Proof.
  intros Hk. apply od_get_is_Some in Hk as [t Ht]. unfold remove, od_pop. by rewrite Ht.
Qed.

Lemma mem_evictions_Ok ks st st' :
  for_each ks (remove ev) st = Ok tt st' ->
  st' = set_dict ev (delete_all ks (dict ev st)) st.
Proof.
  revert st. induction ks as [|k ks IH]; intros st; simpl.
  - unfold ret. intros [= <-]. by destruct st.
  - unfold bind. destruct (remove ev k st) as [[] st1|e st1|st1] eqn:Hrm; try discriminate.
    apply mem_remove_Ok in Hrm as [_ ->]. intros Hrest. apply IH in Hrest. by subst.
Qed.

(** Evicting distinct keys of the catalog never raises. *)
Lemma evictions_total ks st :
  NoDup ks -> (forall k, k ∈ ks -> k ∈ keys (dict ev st)) ->
  for_each ks (remove ev) st = Ok tt (set_dict ev (delete_all ks (dict ev st)) st).
Proof.
  revert st. induction ks as [|k ks IH]; intros st Hnd Hin; simpl.
  - unfold ret. by destruct st.
  - apply NoDup_cons in Hnd as [Hk Hnd]. unfold bind.
    rewrite remove_present by (apply Hin; left).
    rewrite IH; [done | done |].
    intros k' Hk'. simpl. rewrite keys_delete, list_elem_of_filter. split.
    + intros ->. done.
    + apply Hin. by right.
Qed.

(** What [put_blocking] does, case by case on the evictor's answer. *)
Lemma mem_put_blocking_unfold k v st :
  put_blocking ev k v st =
    let kv_chunk_local := to v (device ev st) in
    let '(evict_keys, put_status, e') :=
      update_on_put ev (dict ev st) kv_chunk_local (evictor ev st) in
    if decide (put_status = ILLEGAL) then Ok tt (set_evictor ev e' st)
    else match for_each evict_keys (remove ev) (set_evictor ev e' st) with
         | Ok _ st1 => Ok tt (set_dict ev (od_set k kv_chunk_local (dict ev st1)) st1)
         | Raise e st1 => Raise e st1
         | Block st1 => Block st1
         end.
Proof.
  unfold put_blocking, bind, to_local, gets, evictor_update_on_put, modify, ret.
  destruct (use_pin_memory ev st); simpl;
    destruct (update_on_put ev _ _ _) as [[ks status] e']; simpl;
    by destruct (decide (status = ILLEGAL)).
Qed.

Lemma mem_put_blocking_rejected k v st :
  (update_on_put ev (dict ev st) (to v (device ev st)) (evictor ev st)).1.2 = ILLEGAL ->
  put_blocking ev k v st =
    Ok tt (set_evictor ev (update_on_put ev (dict ev st) (to v (device ev st)) (evictor ev st)).2 st).
Proof.
  rewrite mem_put_blocking_unfold. simpl.
  destruct (update_on_put ev _ _ _) as [[ks status] e']; simpl. intros ->.
  by rewrite decide_True.
Qed.

Lemma mem_put_blocking_admitted k v st st' ks status e' :
  update_on_put ev (dict ev st) (to v (device ev st)) (evictor ev st) = (ks, status, e') ->
  status ≠ ILLEGAL ->
  put_blocking ev k v st = Ok tt st' ->
  st' = set_dict ev (od_set k (to v (device ev st)) (delete_all ks (dict ev st)))
          (set_evictor ev e' st).
Proof.
  intros Hdec Hst. rewrite mem_put_blocking_unfold. simpl. rewrite Hdec.
  rewrite decide_False by done.
  destruct (for_each ks (remove ev) _) as [[] st1|e st1|st1] eqn:Hev; try discriminate.
  apply mem_evictions_Ok in Hev. subst st1. by intros [= <-].
Qed.

(** With an evictor that keeps the contract, the blocking put always
    returns. *)
Lemma mem_put_blocking_returns `{!EvictorContract ev} k v st :
  od_wf (dict ev st) -> exists st', put_blocking ev k v st = Ok tt st'.
Proof.
  intros Hwf. rewrite mem_put_blocking_unfold. simpl.
  destruct (update_on_put ev _ _ _) as [[ks status] e'] eqn:Hdec.
  destruct (decide (status = ILLEGAL)); [eauto|].
  destruct status; [|done]. apply admitted_keys in Hdec as [Hnd Hin]; [|done].
  rewrite evictions_total by done. eauto.
Qed.

(** The queued path on a Rejected decision: it returns, and the mutex it
    took stays held. *)
Lemma mem_put_nonblocking_rejected k v st :
  update_lock ev st = false ->
  (update_on_put ev (dict ev st) (to v (device ev st)) (evictor ev st)).1.2 = ILLEGAL ->
  put_nonblocking ev k v st =
    Ok tt (set_update_lock ev true
             (set_evictor ev (update_on_put ev (dict ev st) (to v (device ev st))
                                (evictor ev st)).2 st)).
Proof.
  intros Hlock. unfold put_nonblocking, bind, to_local, gets, acquire, evictor_update_on_put, ret.
  rewrite Hlock. simpl.
  destruct (use_pin_memory ev st); simpl;
    destruct (update_on_put ev _ _ _) as [[ks status] e']; simpl; intros ->;
    by rewrite decide_True.
Qed.

(** A hit of [get] on a backend whose lock is free. *)
Lemma mem_get_hit k t st :
  update_lock ev st = false ->
  od_get k (dict ev st) = Some t ->
  exists st', get ev k st = Ok (Some (to t (dst_device ev st))) st'.
Proof.
  intros Hlock Hk. unfold get, bind, gets. rewrite Hk.
  unfold acquire. rewrite Hlock. unfold evictor_update_on_get. simpl.
  destruct (update_on_get ev k _ _) as [d' e']. simpl. eauto.
Qed.

(** The evictions of the memory backend never touch the mutex: they do
    not wait for it and leave it as it is. *)
Lemma mem_evictions_lock ks st :
  match for_each ks (remove ev) st with
  | Block _ => False
  | Ok _ s | Raise _ s => update_lock ev s = update_lock ev st
  end.
Proof.
  revert st. induction ks as [|k ks IH]; intros st; simpl; [done|].
  unfold bind, remove at 1. destruct (od_pop k (dict ev st)) as [[t d']|]; [|done].
  exact (IH (set_dict ev d' st)).
Qed.

Lemma mem_put_blocking_lock k v st :
  match put_blocking ev k v st with
  | Block _ => False
  | Ok _ s | Raise _ s => update_lock ev s = update_lock ev st
  end.
Proof.
  rewrite mem_put_blocking_unfold. simpl.
  destruct (update_on_put ev _ _ _) as [[ks status] e'].
  destruct (decide (status = ILLEGAL)); [done|].
  pose proof (mem_evictions_lock ks (set_evictor ev e' st)) as Hev.
  destruct (for_each ks (remove ev) _); simpl in *; done.
Qed.

Lemma mem_evictions_set_lock b ks st st' :
  for_each ks (remove ev) st = Ok tt st' ->
  for_each ks (remove ev) (set_update_lock ev b st) = Ok tt (set_update_lock ev b st').
Proof.
  revert st. induction ks as [|k ks IH]; intros st; simpl.
  - unfold ret. by intros [= <-].
  - unfold bind, remove at 1 3. simpl.
    destruct (od_pop k (dict ev st)) as [[t d']|]; [|done]. apply IH.
Qed.

(** With the mutex free, the queued path ends in the state in which the
    blocking path ends, when the put is admitted and the blocking path
    returns. *)
Lemma mem_put_nonblocking_as_blocking k v st st' :
  update_lock ev st = false ->
  (update_on_put ev (dict ev st) (to v (device ev st)) (evictor ev st)).1.2 ≠ ILLEGAL ->
  put_blocking ev k v st = Ok tt st' ->
  put_nonblocking ev k v st = Ok tt st'.
Proof.
  intros Hlock Hadm. rewrite mem_put_blocking_unfold. simpl.
  unfold put_nonblocking, bind, to_local, gets, acquire, evictor_update_on_put, modify,
    release, ret.
  rewrite Hlock. simpl.
  assert (Hpin : (if use_pin_memory ev st then to v (device ev st) else to v (device ev st))
                 = to v (device ev st)) by (by destruct (use_pin_memory ev st)).
  rewrite Hpin. destruct (update_on_put ev _ _ _) as [[ks status] e']. simpl in *.
  rewrite !decide_False by done.
  destruct (for_each ks (remove ev) (set_evictor ev e' st)) as [[] s1|e s1|s1] eqn:Hev;
    try discriminate.
  intros [= <-].
  pose proof (mem_evictions_lock ks (set_evictor ev e' st)) as Hl.
  rewrite Hev in Hl. simpl in Hl. rewrite Hlock in Hl.
  apply (mem_evictions_set_lock true) in Hev. simpl in Hev.
  change (set_evictor ev e' (set_update_lock ev true st))
    with (set_update_lock ev true (set_evictor ev e' st)).
  rewrite Hev. simpl. f_equal.
  destruct s1; simpl in *. unfold set_dict, set_update_lock. simpl. by rewrite Hl.
Qed.

(** A second [close]: the thread has ended, nothing happens. *)
Lemma mem_close_stopped st : put_thread_alive ev st = false -> close ev st = Ok tt st.
Proof. intros Hdead. unfold close, bind, gets. by rewrite Hdead. Qed.

End facts.
End MemoryFacts.


(** * Facts about strings and the path of a key *)

Lemma append_inv_head (a b c : string) : a +:+ b = a +:+ c -> b = c.
Proof.
  induction a as [|x a IH]; [done|].
  change (String x (a +:+ b) = String x (a +:+ c) -> b = c). intros [= H]. auto.
Qed.

Lemma length_append (a b : string) :
  String.length (a +:+ b) = String.length a + String.length b.
Proof.
  induction a as [|x a IH]; [done|].
  change (S (String.length (a +:+ b)) = S (String.length a + String.length b)).
  by rewrite IH.
Qed.

Lemma append_inv_tail (a b c : string) : a +:+ c = b +:+ c -> a = b.
Proof.
  revert b. induction a as [|x a IH]; intros [|y b]; [done| | |].
  - intros Heq. apply (f_equal String.length) in Heq.
    rewrite !length_append in Heq. simpl in Heq. lia.
  - intros Heq. apply (f_equal String.length) in Heq.
    rewrite !length_append in Heq. simpl in Heq. lia.
  - change (String x (a +:+ c) = String y (b +:+ c) -> String x a = String y b).
    intros [= -> Heq]. f_equal. by apply IH.
Qed.

(** Membership of a character in a string. *)
Fixpoint occurs (c : ascii) (s : string) : bool :=
  match s with
  | EmptyString => false
  | String x s' => Ascii.eqb x c || occurs c s'
  end.

Lemma replace_length old new s : String.length (replace old new s) = String.length s.
Proof. induction s as [|x s IH]; simpl; [done|]. by rewrite IH. Qed.

Lemma replace_occurs_old old new s : old ≠ new -> occurs old (replace old new s) = false.
Proof.
  intros Hne. induction s as [|x s IH]; simpl; [done|]. rewrite IH, orb_false_r.
  destruct (Ascii.eqb_spec x old) as [->|Hx].
  - apply Ascii.eqb_neq. congruence.
  - by apply Ascii.eqb_neq.
Qed.

Lemma replace_absent old new s : occurs old s = false -> replace old new s = s.
Proof.
  induction s as [|x s IH]; simpl; [done|]. intros [Hx Hs]%orb_false_elim.
  rewrite Hx. f_equal. auto.
Qed.

(** Without the new character in either string, replacing is injective. *)
Lemma replace_inj old new s1 s2 :
  occurs new s1 = false -> occurs new s2 = false ->
  replace old new s1 = replace old new s2 -> s1 = s2.
Proof.
  revert s2. induction s1 as [|x s1 IH]; intros [|y s2]; simpl; try done.
  intros [Hx H1]%orb_false_elim [Hy H2]%orb_false_elim [= Hxy Hrest].
  f_equal; [|by apply IH].
  apply Ascii.eqb_neq in Hx, Hy.
  destruct (Ascii.eqb_spec x old), (Ascii.eqb_spec y old); congruence.
Qed.

(** Character by character, [replace] swaps [old] for [new] and keeps
    the rest. *)
Lemma replace_get old new s n :
  String.get n (replace old new s) =
  (fun c => if Ascii.eqb c old then new else c) <$> String.get n s.
Proof.
  revert n. induction s as [|x s IH]; intros n; simpl; [done|].
  destruct n as [|n]; [done|]. apply IH.
Qed.

(** * Facts about the disk backend *)

Module DiskFacts.
Import LMCLocalDiskBackend.
Section facts.
Context {Key : Type} `{EqDecision Key}.
Context (to_string : Key -> string).
Context (ev : Evictor Key string).
Implicit Types (st : Backend ev) (k : Key) (v : Tensor) (p : string).

Abbreviation key_path := (_key_to_path to_string ev).

Lemma key_path_eq k1 k2 st :
  key_path k1 st = key_path k2 st <->
  sanitize (to_string k1) = sanitize (to_string k2).
Proof.
  unfold _key_to_path. split.
  - intros Heq. apply append_inv_tail in Heq. by apply append_inv_head in Heq.
  - by intros ->.
Qed.

(** The file at [p] can be opened and holds the field ["kv_chunk"]. *)
Definition readable st p : Prop :=
  exists f bytes, files ev st !! p = Some f /\ f !! "kv_chunk" = Some bytes.


(** No catalog entry names a missing file: an entry stores the path of
    its key, and the file there is readable. *)
Definition entries_ok st : Prop :=
  forall k p, od_get k (dict ev st) = Some p -> p = key_path k st /\ readable st p.



(** The calls a client makes, and a turn of the worker thread. *)
Inductive Op : Type :=
| OpPut (key : Key) (kv_chunk : Tensor) (blocking : bool)
| OpGet (key : Key)
| OpContains (key : Key)
| OpRemove (key : Key)
| OpWorker
| OpClose.

(** One turn of the worker thread, while it is alive: it takes the oldest
    item of the queue; on the End Signal it ends, and on an exception of
    the put it ends too ([put_worker] catches nothing).  With an empty
    queue it waits in [put_queue.get()]. *)
Definition worker_turn : M (Backend ev) unit :=
  fun st =>
    if put_thread_alive ev st then
      match put_queue ev st with
      | Item key value :: q' =>
          match put_blocking to_string ev key value (set_put_queue ev q' st) with
          | Ok a s => Ok a s
          | Raise e s => Raise e (set_put_thread_alive ev false s)
          | Block s => Block s
          end
      | LocalBackendEndSignal :: q' =>
          Ok tt (set_put_thread_alive ev false (set_put_queue ev q' st))
      | [] => Block st
      end
    else Block st.

Definition run (o : Op) : M (Backend ev) unit :=
  match o with
  | OpPut key kv_chunk blocking => put to_string ev key kv_chunk blocking
  | OpGet key => (get ev key ;; ret tt)%py
  | OpContains key => (contains ev key ;; ret tt)%py
  | OpRemove key => remove ev key
  | OpWorker => worker_turn
  | OpClose => close to_string ev
  end.

(** The call came back, normally or with an exception, in state [st']. *)
Definition completes {A} (o : outcome (Backend ev) A) (st' : Backend ev) : Prop :=
  match o with
  | Ok _ s => s = st'
  | Raise _ s => s = st'
  | Block _ => False
  end.

(** The states between operations that came back, from a backend created
    over a directory that holds the files [fs]: [__init__] takes the
    directory as it finds it. *)
Inductive reachable (fs : gmap string (gmap string (list Z))) : Backend ev -> Prop :=
| reach_init base e0 : reachable fs (init ev base fs e0)
| reach_step st o st' :
    reachable fs st -> completes (run o st) st' -> reachable fs st'.










(** Both parts look at the catalog, the files and the base path only. *)
Lemma entries_ok_frame st st' :
  dict ev st' = dict ev st -> files ev st' = files ev st -> path ev st' = path ev st ->
  entries_ok st -> entries_ok st'.
Proof. unfold entries_ok, readable, _key_to_path. intros -> -> ->. done. Qed.





Lemma disk_set_evictor_same st : set_evictor ev (evictor ev st) st = st.
Proof. by destruct st. Qed.

(** The file [save_file] writes for a payload. *)
Definition saved (v : Tensor) : gmap string (list Z) := {["kv_chunk" := data v]}.

(** What [put_blocking] does, case by case on the evictor's answer, on
    the evictions and on the lock. *)
Lemma disk_put_blocking_unfold k v st :
  put_blocking to_string ev k v st =
    let p := key_path k st in
    let '(evict_keys, put_status, e') := update_on_put ev (dict ev st) v (evictor ev st) in
    if decide (put_status = ILLEGAL) then Ok tt (set_evictor ev e' st)
    else match for_each evict_keys (remove ev) (set_evictor ev e' st) with
         | Ok _ s1 =>
             let s2 := set_files ev (<[p := saved v]> (files ev s1)) s1 in
             if update_lock ev s1 then Block s2
             else Ok tt (set_dict ev (od_set k p (dict ev s1)) s2)
         | Raise e s1 => Raise e s1
         | Block s1 => Block s1
         end.
Proof.
  unfold put_blocking, bind, gets, evictor_update_on_put, modify, save_file, acquire,
    release, ret, saved.
  destruct (update_on_put ev _ _ _) as [[ks status] e']; simpl.
  destruct (decide (status = ILLEGAL)); [done|].
  destruct (for_each ks (remove ev) _) as [[] s1|e s1|s1]; simpl; try done.
  destruct (update_lock ev s1) eqn:Hlock; simpl; [done|].
  repeat f_equal. by destruct s1; simpl in *; subst.
Qed.

Lemma disk_put_blocking_rejected k v st :
  (update_on_put ev (dict ev st) v (evictor ev st)).1.2 = ILLEGAL ->
  put_blocking to_string ev k v st =
    Ok tt (set_evictor ev (update_on_put ev (dict ev st) v (evictor ev st)).2 st).
Proof.
  rewrite disk_put_blocking_unfold. simpl.
  destruct (update_on_put ev _ _ _) as [[ks status] e']; simpl. intros ->.
  by rewrite decide_True.
Qed.

Lemma disk_remove_Ok k st st' :
  remove ev k st = Ok tt st' ->
  dict ev st' = od_delete k (dict ev st) /\ update_lock ev st' = update_lock ev st /\
  dst_device ev st' = dst_device ev st /\ path ev st' = path ev st.
Proof.
  unfold remove, bind, acquire, dict_getitem, modify, release, os_remove.
  destruct (update_lock ev st) eqn:Hlock; [done|]. simpl.
  destruct (od_get k (dict ev st)) as [p|]; simpl; [|done].
  destruct (files ev st !! p); simpl; [|done]. by intros [= <-].
Qed.

Lemma disk_evictions_Ok ks st st' :
  for_each ks (remove ev) st = Ok tt st' ->
  dict ev st' = delete_all ks (dict ev st) /\ update_lock ev st' = update_lock ev st /\
  dst_device ev st' = dst_device ev st /\ path ev st' = path ev st.
Proof.
  revert st. induction ks as [|k ks IH]; intros st; simpl.
  - unfold ret. by intros [= <-].
  - unfold bind. destruct (remove ev k st) as [[] s1|e s1|s1] eqn:Hrm; try discriminate.
    apply disk_remove_Ok in Hrm as (Hd & Hl & Hdst & Hp). intros Hrest.
    apply IH in Hrest as (Hd' & Hl' & Hdst' & Hp'). rewrite Hd in Hd'. by repeat split; congruence.
Qed.

(** The state after an admitted [put_blocking] that came back. *)
Lemma disk_put_blocking_admitted k v st st' ks status e' :
  update_on_put ev (dict ev st) v (evictor ev st) = (ks, status, e') ->
  status ≠ ILLEGAL ->
  put_blocking to_string ev k v st = Ok tt st' ->
  dict ev st' = od_set k (key_path k st) (delete_all ks (dict ev st)) /\
  files ev st' !! key_path k st = Some (saved v) /\
  dst_device ev st' = dst_device ev st.
Proof.
  intros Hdec Hst. rewrite disk_put_blocking_unfold. simpl. rewrite Hdec.
  rewrite decide_False by done.
  destruct (for_each ks (remove ev) _) as [[] s1|e s1|s1] eqn:Hev; try discriminate.
  apply disk_evictions_Ok in Hev as (Hd & _ & Hdst & _). simpl in Hd, Hdst.
  destruct (update_lock ev s1); [discriminate|]. intros [= <-]. simpl.
  rewrite Hd, lookup_insert_eq. done.
Qed.

(** A file that no evicted entry names survives the evictions. *)
Lemma disk_evictions_files ks st st' q :
  for_each ks (remove ev) st = Ok tt st' ->
  (forall k, k ∈ ks -> od_get k (dict ev st) ≠ Some q) ->
  files ev st' !! q = files ev st !! q.
Proof.
  revert st. induction ks as [|k ks IH]; intros st; simpl.
  - unfold ret. by intros [= <-].
  - unfold bind. destruct (remove ev k st) as [[] s1|e s1|s1] eqn:Hrm; try discriminate.
    intros Hrest Hq. transitivity (files ev s1 !! q).
    + apply IH; [done|]. intros k' Hk'.
      apply disk_remove_Ok in Hrm as (-> & _). destruct (decide (k = k')) as [<-|Hne].
      * by rewrite od_get_delete_eq.
      * rewrite od_get_delete_ne by done. apply Hq. by right.
    + revert Hrm. unfold remove, bind, acquire, dict_getitem, modify, release, os_remove.
      destruct (update_lock ev st); [done|]. simpl.
      destruct (od_get k (dict ev st)) as [p|] eqn:Hp; simpl; [|done].
      destruct (files ev st !! p); simpl; [|done]. intros [= <-]. simpl.
      apply lookup_delete_ne. intros ->. by apply (Hq k); [left|].
Qed.

(** An admitted put leaves alone every file but its own and those of the
    evicted entries. *)
Lemma disk_put_blocking_files k v st st' ks status e' q :
  update_on_put ev (dict ev st) v (evictor ev st) = (ks, status, e') ->
  status ≠ ILLEGAL ->
  put_blocking to_string ev k v st = Ok tt st' ->
  q ≠ key_path k st ->
  (forall k', k' ∈ ks -> od_get k' (dict ev st) ≠ Some q) ->
  files ev st' !! q = files ev st !! q.
Proof.
  intros Hdec Hst. rewrite disk_put_blocking_unfold. simpl. rewrite Hdec.
  rewrite decide_False by done.
  destruct (for_each ks (remove ev) _) as [[] s1|e s1|s1] eqn:Hev; try discriminate.
  destruct (update_lock ev s1); [discriminate|]. intros [= <-] Hq Hks. simpl.
  rewrite lookup_insert_ne by done. by apply (disk_evictions_files ks _ _ q) in Hev.
Qed.

(** A hit of [get] whose file is in place. *)
Lemma disk_get_hit k p bytes st :
  od_get k (dict ev st) = Some p ->
  files ev st !! p = Some {["kv_chunk" := bytes]} ->
  exists st', get ev k st = Ok (Some {| data := bytes; device_of := dst_device ev st |}) st'.
Proof.
  intros Hk Hf. unfold get, bind, contains, gets, od_contains.
  rewrite bool_decide_eq_true_2 by (rewrite Hk; eauto). simpl.
  unfold dict_getitem. rewrite Hk. unfold evictor_update_on_get.
  destruct (update_on_get ev k _ _) as [d' e']. simpl.
  unfold safe_open_get_tensor. simpl. rewrite Hf, lookup_singleton_eq. eauto.
Qed.


Section preservation.
Hypothesis sanitize_inj :
  forall k1 k2, sanitize (to_string k1) = sanitize (to_string k2) -> k1 = k2.

(** However [remove] ends, no entry is left that names a missing file. *)
Lemma remove_entries_ok k st :
  entries_ok st ->
  entries_ok (state_of (remove ev k st)) /\
  path ev (state_of (remove ev k st)) = path ev st.
Proof.
  intros Hentry.
  unfold remove, bind, acquire, dict_getitem, modify, release, os_remove.
  destruct (update_lock ev st) eqn:Hlock; [done|]. simpl.
  destruct (od_get k (dict ev st)) as [p|] eqn:Hk; simpl.
  2:{ split; [|done]. revert Hentry. by apply entries_ok_frame. }
  destruct (Hentry k p Hk) as [Hp _].
  destruct (files ev st !! p) as [f0|] eqn:Hf; simpl; (split; [|done]).
  - intros k' p' Hk'. simpl in Hk'. destruct (decide (k = k')) as [<-|Hne].
    { by rewrite od_get_delete_eq in Hk'. }
    rewrite od_get_delete_ne in Hk' by done.
    destruct (Hentry k' p' Hk') as [Hp' (f' & bytes' & Hf' & Hb')].
    split; [done|]. exists f', bytes'. split; [|done]. simpl.
    rewrite lookup_delete_ne; [done|].
    intros <-. apply Hne. apply sanitize_inj. eapply key_path_eq. by rewrite <- Hp, <- Hp'.
  - intros k' p' Hk'. simpl in Hk'. destruct (decide (k = k')) as [<-|Hne].
    { by rewrite od_get_delete_eq in Hk'. }
    rewrite od_get_delete_ne in Hk' by done. exact (Hentry k' p' Hk').
Qed.







Lemma disk_remove_present k st :
  update_lock ev st = false -> entries_ok st -> k ∈ keys (dict ev st) ->
  exists st', remove ev k st = Ok tt st'.
Proof.
  intros Hlock Hentry Hk. apply od_get_is_Some in Hk as [p Hp].
  destruct (Hentry k p Hp) as [_ (f & b & Hf & _)].
  unfold remove, bind, acquire, dict_getitem, modify, release, os_remove.
  rewrite Hlock. simpl. rewrite Hp. simpl. rewrite Hf. eauto.
Qed.

Lemma disk_evictions_total ks st :
  NoDup ks -> (forall k, k ∈ ks -> k ∈ keys (dict ev st)) ->
  update_lock ev st = false -> entries_ok st ->
  exists st', for_each ks (remove ev) st = Ok tt st'.
Proof.
  revert st. induction ks as [|k ks IH]; intros st Hnd Hin Hlock Hinv; simpl.
  - unfold ret. eauto.
  - apply NoDup_cons in Hnd as [Hk Hnd]. unfold bind.
    destruct (disk_remove_present k st Hlock Hinv) as [st1 Hrm]; [apply Hin; left|].
    destruct (remove_entries_ok k st Hinv) as [Hinv1 _]. rewrite Hrm in *. simpl in Hinv1.
    apply disk_remove_Ok in Hrm as (Hd & Hl & _ & _).
    apply IH; [done| |congruence|done].
    intros k' Hk'. rewrite Hd, keys_delete, list_elem_of_filter. split.
    + intros ->. done.
    + apply Hin. by right.
Qed.

(** With an evictor that keeps the contract, the mutex free and every
    entry on a readable file, the blocking put always returns. *)
Lemma disk_put_blocking_returns `{!EvictorContract ev} k v st :
  od_wf (dict ev st) -> update_lock ev st = false -> entries_ok st ->
  exists st', put_blocking to_string ev k v st = Ok tt st'.
Proof.
  intros Hwf Hlock Hinv. rewrite disk_put_blocking_unfold. simpl.
  destruct (update_on_put ev _ _ _) as [[ks status] e'] eqn:Hdec.
  destruct (decide (status = ILLEGAL)); [eauto|].
  destruct status; [|done]. apply admitted_keys in Hdec as [Hnd Hin]; [|done].
  assert (Hinv' : entries_ok (set_evictor ev e' st))
    by (revert Hinv; by apply entries_ok_frame).
  destruct (disk_evictions_total ks (set_evictor ev e' st) Hnd Hin Hlock Hinv') as [s1 Hev].
  rewrite Hev. apply disk_evictions_Ok in Hev as (_ & Hl & _ & _). simpl in Hl.
  rewrite Hl, Hlock. eauto.
Qed.








End preservation.

(** A second [close]: the thread has ended, nothing happens. *)
Lemma disk_close_stopped st :
  put_thread_alive ev st = false -> close to_string ev st = Ok tt st.
Proof. intros Hdead. unfold close, bind, gets. by rewrite Hdead. Qed.


End facts.
End DiskFacts.

(** * Properties of both backends *)

Module Backends.
Module Mem := LMCLocalBackend.
Module Disk := LMCLocalDiskBackend.

(** C1: on the memory backend and on the disk backend, a blocking put
    whose admission decision is Rejected ([PutStatus.ILLEGAL]) returns
    without an exception and leaves the backend as it was: the catalog
    (entries and order), the evictor's state and, on disk, the files are
    those from before the call.  A queued put of the memory backend that
    the worker finds Rejected returns as well, with the same catalog and
    evictor state (of the whole backend only the mutex differs).  The
    evictor is the one of the spec: a Rejected decision does not change
    its own state. *)
Theorem rejected_put_changes_nothing :
  forall (Key : Type) `{EqDecision Key} (to_string : Key -> string)
         (evm : Evictor Key Tensor) (evd : Evictor Key string),
    EvictorContract evm -> EvictorContract evd ->
    (forall (st : Mem.Backend evm) (k : Key) (v : Tensor),
        (update_on_put evm (Mem.dict evm st) (to v (Mem.device evm st))
           (Mem.evictor evm st)).1.2 = ILLEGAL ->
        Mem.put evm k v true st = Ok tt st) /\
    (forall (st : Mem.Backend evm) (k : Key) (v : Tensor),
        Mem.update_lock evm st = false ->
        (update_on_put evm (Mem.dict evm st) (to v (Mem.device evm st))
           (Mem.evictor evm st)).1.2 = ILLEGAL ->
        Mem.put_nonblocking evm k v st = Ok tt (Mem.set_update_lock evm true st)) /\
    (forall (st : Disk.Backend evd) (k : Key) (v : Tensor),
        (update_on_put evd (Disk.dict evd st) v (Disk.evictor evd st)).1.2 = ILLEGAL ->
        Disk.put to_string evd k v true st = Ok tt st).
Proof.
  intros Key ? to_string evm evd Hm Hd. split; [|split].
  - intros st k v Hrej. simpl. rewrite MemoryFacts.mem_put_blocking_rejected by done.
    destruct (update_on_put evm _ _ _) as [[ks status] e'] eqn:Hdec. simpl in *. subst status.
    apply rejected_untouched in Hdec as [_ ->]. by rewrite MemoryFacts.mem_set_evictor_same.
  - intros st k v Hlock Hrej. rewrite MemoryFacts.mem_put_nonblocking_rejected by done.
    destruct (update_on_put evm _ _ _) as [[ks status] e'] eqn:Hdec. simpl in *. subst status.
    apply rejected_untouched in Hdec as [_ ->]. by rewrite MemoryFacts.mem_set_evictor_same.
  - intros st k v Hrej. simpl. rewrite DiskFacts.disk_put_blocking_rejected by done.
    destruct (update_on_put evd _ _ _) as [[ks status] e'] eqn:Hdec. simpl in *. subst status.
    apply rejected_untouched in Hdec as [_ ->]. by rewrite DiskFacts.disk_set_evictor_same.
Qed.

Lemma rejected_put_changes_nothing_witness :
  Mem.put Scenario.mem_evictor "k" Scenario.big true Scenario.mem0 = Ok tt Scenario.mem0 /\
  Mem.put_nonblocking Scenario.mem_evictor "k" Scenario.big Scenario.mem0
    = Ok tt (Mem.set_update_lock _ true Scenario.mem0) /\
  Disk.put Scenario.canonical Scenario.disk_evictor_full "k" Scenario.small true
    Scenario.disk0_full = Ok tt Scenario.disk0_full.
Proof.
  destruct (rejected_put_changes_nothing string Scenario.canonical
              Scenario.mem_evictor Scenario.disk_evictor_full
              (LRU.LRUEvictor_contract _ _ _) (LRU.LRUEvictor_contract _ _ _))
    as (Hm & Hq & Hd).
  split; [apply Hm | split; [apply Hq | apply Hd]]; reflexivity.
Defined.

(** Put, then get, where nothing holds the mutex: on either backend, when
    a blocking put of [v] under [k] is admitted and comes back, the
    [get k] that follows returns a payload (never [None]) whose content
    equals that of [v].  On the memory backend [get] takes the mutex; the
    statement is for a mutex that is free at the time of the calls, and
    [memory_get_hangs_after_rejected_item] shows what happens otherwise. *)
Theorem put_then_get_returns_payload :
  forall (Key : Type) `{EqDecision Key} (to_string : Key -> string)
         (evm : Evictor Key Tensor) (evd : Evictor Key string),
    (forall (st st' : Mem.Backend evm) (k : Key) (v : Tensor),
        Mem.update_lock evm st = false ->
        (update_on_put evm (Mem.dict evm st) (to v (Mem.device evm st))
           (Mem.evictor evm st)).1.2 ≠ ILLEGAL ->
        Mem.put evm k v true st = Ok tt st' ->
        exists t st'', Mem.get evm k st' = Ok (Some t) st'' /\ content_equal t v) /\
    (forall (st st' : Disk.Backend evd) (k : Key) (v : Tensor),
        (update_on_put evd (Disk.dict evd st) v (Disk.evictor evd st)).1.2 ≠ ILLEGAL ->
        Disk.put to_string evd k v true st = Ok tt st' ->
        exists t st'', Disk.get evd k st' = Ok (Some t) st'' /\ content_equal t v).
Proof.
  intros Key ? to_string evm evd. split.
  - intros st st' k v Hlock Hadm Hput. simpl in Hput.
    destruct (update_on_put evm _ _ _) as [[ks status] e'] eqn:Hdec. simpl in Hadm.
    pose proof (MemoryFacts.mem_put_blocking_admitted evm k v st st' ks status e' Hdec Hadm Hput)
      as ->.
    set (st1 := Mem.set_dict evm (od_set k (to v (Mem.device evm st))
                   (delete_all ks (Mem.dict evm st))) (Mem.set_evictor evm e' st)).
    assert (Hlock1 : Mem.update_lock evm st1 = false) by exact Hlock.
    assert (Hk : od_get k (Mem.dict evm st1) = Some (to v (Mem.device evm st)))
      by (simpl; apply od_get_set_eq).
    destruct (MemoryFacts.mem_get_hit evm k _ st1 Hlock1 Hk) as [st'' Hget].
    eexists _, st''. split; [exact Hget | reflexivity].
  - intros st st' k v Hadm Hput. simpl in Hput.
    destruct (update_on_put evd _ _ _) as [[ks status] e'] eqn:Hdec. simpl in Hadm.
    pose proof (DiskFacts.disk_put_blocking_admitted to_string evd k v st st' ks status e'
                  Hdec Hadm Hput) as (Hd & Hf & _).
    assert (Hk : od_get k (Disk.dict evd st') = Some (Disk._key_to_path to_string evd k st))
      by (rewrite Hd; apply od_get_set_eq).
    destruct (DiskFacts.disk_get_hit evd k _ (data v) st' Hk Hf) as [st'' Hget].
    eexists _, st''. split; [exact Hget | reflexivity].
Qed.

Lemma put_then_get_returns_payload_witness :
  (exists t st'',
      Mem.get Scenario.mem_evictor "k"
        (state_of (Mem.put Scenario.mem_evictor "k" Scenario.small true Scenario.mem0))
      = Ok (Some t) st'' /\ content_equal t Scenario.small) /\
  (exists t st'',
      Disk.get Scenario.disk_evictor "a/b"
        (state_of (Disk.put Scenario.canonical Scenario.disk_evictor "a/b" Scenario.small true
                     Scenario.disk0))
      = Ok (Some t) st'' /\ content_equal t Scenario.small).
Proof.
  destruct (put_then_get_returns_payload string Scenario.canonical
              Scenario.mem_evictor Scenario.disk_evictor) as [Hm Hd].
  split.
  - apply (Hm Scenario.mem0); [reflexivity | vm_compute; discriminate | vm_compute; reflexivity].
  - apply (Hd Scenario.disk0); [vm_compute; discriminate | vm_compute; reflexivity].
Defined.

(** C2 on the code: on the memory backend, an admitted blocking put
    followed at once by [get] of the same key does not always return the
    payload.  The worker takes the queued put of "k1", which is Rejected,
    and goes back to wait for the queue with the mutex still held.  The
    blocking put of "k2" is admitted and returns, the catalog holds "k2"
    with the payload, and the [get] of "k2" that follows waits for the
    mutex for ever. *)
Theorem memory_get_hangs_after_rejected_item :
  let queued := state_of (Mem.put Scenario.mem_evictor "k1" Scenario.big false Scenario.mem0) in
  let leaked := Mem.set_update_lock Scenario.mem_evictor true Scenario.mem0 in
  let stored := Mem.set_dict _ [("k2", to Scenario.small "cpu")] leaked in
  Mem.put_queue _ queued = [Mem.Item "k1" Scenario.big] /\
  Mem.put_worker Scenario.mem_evictor queued = Mem.Idle _ leaked /\
  (update_on_put Scenario.mem_evictor (Mem.dict _ leaked)
     (to Scenario.small (Mem.device _ leaked)) (Mem.evictor _ leaked)).1.2 = LEGAL /\
  Mem.put Scenario.mem_evictor "k2" Scenario.small true leaked = Ok tt stored /\
  od_get "k2" (Mem.dict _ stored) = Some (to Scenario.small "cpu") /\
  Mem.get Scenario.mem_evictor "k2" stored = Block stored.
Proof. repeat split. Qed.

(** C10: on either backend, an admitted put under a key [k] that is in
    the catalog and not in the eviction list keeps the order of the
    catalog: the keys afterwards are the keys from before without the
    evicted ones, in the same order, so [k] stays where it was and does
    not go to the most recently used end; [k] now maps to the new payload
    (on disk: to its path, whose file holds the new payload) and every
    other key that was not evicted maps to what it did (on disk, every
    file but the one at the path of [k] and those of the evicted entries
    is as it was). *)
Theorem reput_keeps_recency_order :
  forall (Key : Type) `{EqDecision Key} (to_string : Key -> string)
         (evm : Evictor Key Tensor) (evd : Evictor Key string),
    (forall (st st' : Mem.Backend evm) (k : Key) (v : Tensor) ks status e',
        update_on_put evm (Mem.dict evm st) (to v (Mem.device evm st)) (Mem.evictor evm st)
          = (ks, status, e') ->
        status ≠ ILLEGAL ->
        k ∈ keys (Mem.dict evm st) -> k ∉ ks ->
        Mem.put evm k v true st = Ok tt st' ->
        keys (Mem.dict evm st') = filter (fun x => x ∉ ks) (keys (Mem.dict evm st)) /\
        od_get k (Mem.dict evm st') = Some (to v (Mem.device evm st)) /\
        (forall k', k' ≠ k -> k' ∉ ks ->
                    od_get k' (Mem.dict evm st') = od_get k' (Mem.dict evm st))) /\
    (forall (st st' : Disk.Backend evd) (k : Key) (v : Tensor) ks status e',
        update_on_put evd (Disk.dict evd st) v (Disk.evictor evd st) = (ks, status, e') ->
        status ≠ ILLEGAL ->
        k ∈ keys (Disk.dict evd st) -> k ∉ ks ->
        Disk.put to_string evd k v true st = Ok tt st' ->
        keys (Disk.dict evd st') = filter (fun x => x ∉ ks) (keys (Disk.dict evd st)) /\
        od_get k (Disk.dict evd st') = Some (Disk._key_to_path to_string evd k st) /\
        Disk.files evd st' !! Disk._key_to_path to_string evd k st = Some (DiskFacts.saved v) /\
        (forall k', k' ≠ k -> k' ∉ ks ->
                    od_get k' (Disk.dict evd st') = od_get k' (Disk.dict evd st)) /\
        (forall q, q ≠ Disk._key_to_path to_string evd k st ->
                   (forall k', k' ∈ ks -> od_get k' (Disk.dict evd st) ≠ Some q) ->
                   Disk.files evd st' !! q = Disk.files evd st !! q)).
Proof.
  intros Key ? to_string evm evd. split.
  - intros st st' k v ks status e' Hdec Hadm Hin Hnot Hput. simpl in Hput.
    pose proof (MemoryFacts.mem_put_blocking_admitted evm k v st st' ks status e'
                  Hdec Hadm Hput) as ->. simpl.
    split; [|split].
    + rewrite keys_set_present; [apply keys_delete_all|].
      rewrite keys_delete_all, list_elem_of_filter. done.
    + apply od_get_set_eq.
    + intros k' Hne Hk'. rewrite od_get_set_ne by done. by apply od_get_delete_all.
  - intros st st' k v ks status e' Hdec Hadm Hin Hnot Hput. simpl in Hput.
    pose proof (DiskFacts.disk_put_blocking_admitted to_string evd k v st st' ks status e'
                  Hdec Hadm Hput) as (Hd & Hf & _). rewrite Hd.
    split; [|split; [|split; [|split]]].
    + rewrite keys_set_present; [apply keys_delete_all|].
      rewrite keys_delete_all, list_elem_of_filter. done.
    + apply od_get_set_eq.
    + exact Hf.
    + intros k' Hne Hk'. rewrite od_get_set_ne by done. by apply od_get_delete_all.
    + intros q Hq Hks.
      by apply (DiskFacts.disk_put_blocking_files to_string evd k v st st' ks status e').
Qed.

Lemma reput_keeps_recency_order_witness :
  keys (Mem.dict _ (state_of (Mem.put Scenario.mem_evictor "a" Scenario.small true
                                Scenario.mem_ab))) = ["a"; "b"] /\
  keys (Disk.dict _ (state_of (Disk.put Scenario.canonical Scenario.disk_evictor "a"
                                 Scenario.small true Scenario.disk_ab))) = ["a"; "b"].
Proof.
  destruct (reput_keeps_recency_order string Scenario.canonical
              Scenario.mem_evictor Scenario.disk_evictor) as [Hm Hd].
  split.
  - destruct (Hm Scenario.mem_ab
                (state_of (Mem.put Scenario.mem_evictor "a" Scenario.small true Scenario.mem_ab))
                "a" Scenario.small [] LEGAL tt) as [Hkeys _].
    + reflexivity.
    + discriminate.
    + vm_compute. left.
    + apply not_elem_of_nil.
    + vm_compute. reflexivity.
    + rewrite Hkeys. vm_compute. reflexivity.
  - destruct (Hd Scenario.disk_ab
                (state_of (Disk.put Scenario.canonical Scenario.disk_evictor "a" Scenario.small
                             true Scenario.disk_ab))
                "a" Scenario.small [] LEGAL tt) as [Hkeys _].
    + reflexivity.
    + discriminate.
    + vm_compute. left.
    + apply not_elem_of_nil.
    + vm_compute. reflexivity.
    + rewrite Hkeys. vm_compute. reflexivity.
Defined.




(** C6, as the code has it: the path of a key is the base path, then at
    once (the code puts no separator of its own in between) the sanitized
    canonical string of the key, then ".pt".  The sanitized string is the
    canonical string with every "/" replaced by "-", character by
    character, so the file name holds no "/".  Two keys get the same path
    exactly when their sanitized strings are equal; hence keys with
    different canonical strings get different paths when those strings
    hold no "-". *)
Theorem key_to_path_format :
  forall (Key : Type) (to_string : Key -> string) (evd : Evictor Key string)
         (st : Disk.Backend evd) (k : Key),
    Disk._key_to_path to_string evd k st
      = Disk.path evd st +:+ Disk.sanitize (to_string k) +:+ ".pt" /\
    String.length (Disk.sanitize (to_string k)) = String.length (to_string k) /\
    (forall n, String.get n (Disk.sanitize (to_string k)) =
               (fun c => if Ascii.eqb c "/" then "-"%char else c) <$> String.get n (to_string k)) /\
    occurs "/" (Disk.sanitize (to_string k)) = false /\
    (forall k', Disk._key_to_path to_string evd k st = Disk._key_to_path to_string evd k' st <->
                Disk.sanitize (to_string k) = Disk.sanitize (to_string k')) /\
    (forall k', occurs "-" (to_string k) = false -> occurs "-" (to_string k') = false ->
                to_string k ≠ to_string k' ->
                Disk._key_to_path to_string evd k st ≠ Disk._key_to_path to_string evd k' st).
Proof.
  intros Key to_string evd st k. repeat split.
  - unfold Disk._key_to_path. generalize (Disk.path evd st) as base. intros base.
    induction base as [|c base IH]; [done|].
    change (String c ((base +:+ Disk.sanitize (to_string k)) +:+ ".pt") =
            String c (base +:+ Disk.sanitize (to_string k) +:+ ".pt")).
    by rewrite IH.
  - apply replace_length.
  - intros n. apply replace_get.
  - apply replace_occurs_old. discriminate.
  - apply DiskFacts.key_path_eq.
  - apply DiskFacts.key_path_eq.
  - intros k' Hk Hk' Hne Heq. apply DiskFacts.key_path_eq in Heq.
    apply Hne. by eapply replace_inj.
Qed.

Lemma key_to_path_format_witness :
  Disk._key_to_path Scenario.canonical Scenario.disk_evictor "fmt/a" Scenario.disk0
    = "/tmp/cache/fmt-a.pt" /\
  Disk._key_to_path Scenario.canonical Scenario.disk_evictor "fmt/a" Scenario.disk0
    ≠ Disk._key_to_path Scenario.canonical Scenario.disk_evictor "fmt/b" Scenario.disk0.
Proof.
  destruct (key_to_path_format string Scenario.canonical Scenario.disk_evictor
              Scenario.disk0 "fmt/a") as (Hfmt & _ & _ & _ & _ & Hdistinct).
  split.
  - rewrite Hfmt. reflexivity.
  - apply Hdistinct; [reflexivity | reflexivity | discriminate].
Defined.

(** C6 fails as stated.  With the base path "/tmp/cache" the key "abc" is
    stored at "/tmp/cacheabc.pt", not at "/tmp/cache/abc.pt"; and the
    distinct keys "a/b" and "a-b" are stored at the same path. *)
Lemma key_to_path_collides :
  let st := Disk.init Scenario.disk_evictor "/tmp/cache" ∅ tt in
  Disk._key_to_path Scenario.canonical Scenario.disk_evictor "abc" st = "/tmp/cacheabc.pt" /\
  Disk._key_to_path Scenario.canonical Scenario.disk_evictor "abc" st ≠ "/tmp/cache/abc.pt" /\
  Scenario.canonical "a/b" ≠ Scenario.canonical "a-b" /\
  Disk._key_to_path Scenario.canonical Scenario.disk_evictor "a/b" st
    = Disk._key_to_path Scenario.canonical Scenario.disk_evictor "a-b" st.
Proof. repeat split; try reflexivity; vm_compute; discriminate. Qed.

(** C4 on the code: the blocking put of the memory backend never takes
    the mutex.  It never waits for it and leaves it as it found it; with
    the mutex held by another thread it still rewrites the catalog.  The
    queued path, [put_nonblocking], takes the mutex, and on a Rejected
    decision returns with the mutex still held. *)
Theorem memory_put_misuses_the_mutex :
  (forall (Key : Type) `{EqDecision Key} (evm : Evictor Key Tensor)
          (st : Mem.Backend evm) (k : Key) (v : Tensor),
      (forall s, Mem.put evm k v true st ≠ Block s) /\
      Mem.update_lock evm (state_of (Mem.put evm k v true st)) = Mem.update_lock evm st) /\
  (let held := Mem.set_update_lock Scenario.mem_evictor true Scenario.mem0 in
   Mem.put Scenario.mem_evictor "k" Scenario.small true held
     = Ok tt (Mem.set_dict _ [("k", to Scenario.small "cpu")] held)) /\
  Mem.put_nonblocking Scenario.mem_evictor "k" Scenario.big Scenario.mem0
    = Ok tt (Mem.set_update_lock _ true Scenario.mem0).
Proof.
  split; [|split; reflexivity].
  intros Key ? evm st k v. simpl.
  pose proof (MemoryFacts.mem_put_blocking_lock evm k v st) as Hlock.
  destruct (Mem.put_blocking evm k v st); simpl in *; [split; [discriminate|done]..|done].
Qed.

(** C5 on the code: the worker does not apply the blocking-path sequence
    to every item.  After the Rejected item "k1" the mutex stays held; on
    the next item, "k2", [put_nonblocking] waits for the mutex for ever,
    where [put_blocking] from the same state stores "k2".  The worker
    never gets past "k2" and the catalog never holds it. *)
Theorem memory_worker_stuck_after_rejected_item :
  let leaked := Mem.set_update_lock Scenario.mem_evictor true Scenario.mem0 in
  Mem.put_queue _ Scenario.mem_queued
    = [Mem.Item "k1" Scenario.big; Mem.Item "k2" Scenario.small] /\
  Mem.put_nonblocking Scenario.mem_evictor "k1" Scenario.big Scenario.mem0 = Ok tt leaked /\
  Mem.put_nonblocking Scenario.mem_evictor "k2" Scenario.small leaked = Block leaked /\
  Mem.put_blocking Scenario.mem_evictor "k2" Scenario.small leaked
    = Ok tt (Mem.set_dict _ [("k2", to Scenario.small "cpu")] leaked) /\
  Mem.put_worker Scenario.mem_evictor Scenario.mem_queued = Mem.Stuck _ leaked /\
  od_get "k2" (Mem.dict _ (Mem.worker_state _
                 (Mem.put_worker Scenario.mem_evictor Scenario.mem_queued))) = None.
Proof. repeat split. Qed.

(** C7 on the code: on the memory backend, with a Rejected put and then
    another put in the queue, [close] pushes the End Signal and joins a
    worker that waits for the mutex for ever: [close] does not return,
    the queued put of "k2" is never applied and the End Signal is never
    taken.  (The second call of [close] on a stopped worker does nothing,
    see [mem_close_stopped] and [disk_close_stopped].) *)
Theorem memory_close_hangs_after_rejected_item :
  let leaked := Mem.set_update_lock Scenario.mem_evictor true Scenario.mem0 in
  let st := Mem.set_put_queue _ [Mem.LocalBackendEndSignal] leaked in
  Mem.put_thread_alive _ Scenario.mem_queued = true /\
  Mem.close Scenario.mem_evictor Scenario.mem_queued = Block st /\
  od_get "k2" (Mem.dict _ st) = None /\
  Mem.put_thread_alive _ st = true.
Proof. repeat split. Qed.

End Backends.


(** * Further properties of the memory backend *)

(** [f] applied to the state an outcome carries. *)
Definition map_state {S A} (f : S -> S) (o : outcome S A) : outcome S A :=
  match o with
  | Ok a s => Ok a (f s)
  | Raise e s => Raise e (f s)
  | Block s => Block (f s)
  end.

Lemma for_each_app {S A} (l1 l2 : list A) (f : A -> M S unit) (s : S) :
  for_each (l1 ++ l2) f s = bind (for_each l1 f) (fun _ => for_each l2 f) s.
Proof.
  revert s. induction l1 as [|x l1 IH]; intros s; simpl; [done|].
  unfold bind in *. destruct (f x s); [apply IH|done..].
Qed.

(** Closes a decidable goal about concrete data by evaluating its
    decision procedure. *)
Ltac by_decide :=
  match goal with
  | |- ?P => refine (bool_decide_unpack P _); vm_compute; exact I
  end.

Module MemoryMore.
Import LMCLocalBackend.

(** [__del__]: the finalizer closes the backend. *)
Definition __del__ {Key : Type} `{EqDecision Key} (ev : Evictor Key Tensor)
  : M (Backend ev) unit := close ev.

(** The puts of [items], one blocking put after the other. *)
Definition sync_puts {Key : Type} `{EqDecision Key} (ev : Evictor Key Tensor)
    (items : list (Key * Tensor)) : M (Backend ev) unit :=
  for_each items (fun kv => put ev kv.1 kv.2 true).

(** The queue items of a list of puts. *)
Definition as_items {Key : Type} (items : list (Key * Tensor)) : list (@QItem Key) :=
  map (fun kv => Item kv.1 kv.2) items.

(** None of the puts of [items], done one after the other from [st], is
    Rejected, and each returns. *)
Fixpoint all_admitted {Key : Type} `{EqDecision Key} (ev : Evictor Key Tensor)
    (items : list (Key * Tensor)) (st : Backend ev) : Prop :=
  match items with
  | [] => True
  | (k, v) :: rest =>
      (update_on_put ev (dict ev st) (to v (device ev st)) (evictor ev st)).1.2 ≠ ILLEGAL /\
      match put ev k v true st with
      | Ok _ st' => all_admitted ev rest st'
      | _ => False
      end
  end.

(** An evictor that names a key no catalog holds. *)
Definition stray_evictor : Evictor string Tensor := {|
  EvState := unit;
  update_on_put := fun d v s => (keys d ++ ["stray"], LEGAL, s);
  update_on_get := fun k d s => (od_move_to_end k d, s)
|}.

Section more.
Context {Key : Type} `{EqDecision Key}.
Context (ev : Evictor Key Tensor).
Implicit Types (st : Backend ev) (k : Key) (v : Tensor).

(** X1: for a key that is not in the catalog, [contains] answers [False],
    [get] returns [None] and [remove] raises [KeyError]; none of the three
    changes the backend, and none waits for the mutex, held or not. *)
Theorem mem_absent_key k st :
  k ∉ keys (dict ev st) ->
  contains ev k st = Ok false st /\
  get ev k st = Ok None st /\
  remove ev k st = Raise KeyError st.
Proof.
  intros Hk. pose proof Hk as Hnone. apply od_get_None in Hnone.
  unfold contains, get, remove, bind, gets, od_contains, od_pop. rewrite Hnone.
  by repeat split.
Qed.


(** X3: [remove] of a key that is in the catalog returns, takes out that
    key and nothing else: the other keys keep their payloads and their
    order, and afterwards [contains] answers [False] and [get] returns
    [None] for the key. *)
Theorem mem_remove_takes_out_one_key k st :
  k ∈ keys (dict ev st) ->
  exists st',
    remove ev k st = Ok tt st' /\
    keys (dict ev st') = filter (fun x => x ≠ k) (keys (dict ev st)) /\
    (forall k', k' ≠ k -> od_get k' (dict ev st') = od_get k' (dict ev st)) /\
    contains ev k st' = Ok false st' /\
    get ev k st' = Ok None st'.
Proof.
  intros Hk. eexists. split; [by apply MemoryFacts.remove_present|].
  simpl. split; [apply keys_delete|]. split.
  - intros k' Hne. apply od_get_delete_ne. congruence.
  - unfold contains, get, bind, gets, od_contains. simpl. rewrite od_get_delete_eq.
    split; [|done]. rewrite bool_decide_eq_false_2; [done|]. intros [? [=]].
Qed.

(** X4: an admitted blocking put under a key that is new to the catalog,
    or that is itself among the evicted keys, puts the key at the most
    recently used end, behind the keys that were not evicted; every other
    evicted key is gone. *)
Theorem mem_put_new_key_goes_last k v st st' ks status e' :
  update_on_put ev (dict ev st) (to v (device ev st)) (evictor ev st) = (ks, status, e') ->
  status ≠ ILLEGAL ->
  k ∉ keys (dict ev st) \/ k ∈ ks ->
  put ev k v true st = Ok tt st' ->
  keys (dict ev st') = filter (fun x => x ∉ ks) (keys (dict ev st)) ++ [k] /\
  od_get k (dict ev st') = Some (to v (device ev st)) /\
  (forall k', k' ∈ ks -> k' ≠ k -> od_get k' (dict ev st') = None).
Proof.
  intros Hdec Hadm Hnew Hput. simpl in Hput.
  pose proof (MemoryFacts.mem_put_blocking_admitted ev k v st st' ks status e'
                Hdec Hadm Hput) as ->. simpl.
  assert (Hgone : forall x, x ∈ ks -> x ∉ keys (delete_all ks (dict ev st))).
  { intros x Hx. rewrite keys_delete_all, list_elem_of_filter. tauto. }
  split; [|split].
  - rewrite keys_set_absent; [by rewrite keys_delete_all|].
    destruct Hnew as [Hnew|Hnew]; [|by apply Hgone].
    rewrite keys_delete_all, list_elem_of_filter. tauto.
  - apply od_get_set_eq.
  - intros k' Hk' Hne. rewrite od_get_set_ne by done. apply od_get_None. by apply Hgone.
Qed.

(** X5: when the eviction list names, after some keys of the catalog, a
    key that the catalog does not hold (or holds no longer), the blocking
    put raises [KeyError]: the keys named before it stay evicted, the new
    entry is not stored and the mutex is not touched. *)
Theorem mem_put_stray_eviction_raises k v st ks1 bad ks2 status e' :
  update_on_put ev (dict ev st) (to v (device ev st)) (evictor ev st)
    = (ks1 ++ bad :: ks2, status, e') ->
  status ≠ ILLEGAL ->
  NoDup ks1 -> (forall x, x ∈ ks1 -> x ∈ keys (dict ev st)) ->
  bad ∉ keys (dict ev st) \/ bad ∈ ks1 ->
  put ev k v true st =
    Raise KeyError (set_dict ev (delete_all ks1 (dict ev st)) (set_evictor ev e' st)).
Proof.
  intros Hdec Hadm Hnd Hin Hbad. simpl. rewrite MemoryFacts.mem_put_blocking_unfold. simpl.
  rewrite Hdec. rewrite decide_False by done.
  rewrite for_each_app. unfold bind at 1.
  rewrite MemoryFacts.evictions_total by done. simpl.
  unfold bind, remove at 1, od_pop. simpl.
  assert (Hnone : od_get bad (delete_all ks1 (dict ev st)) = None).
  { apply od_get_None. rewrite keys_delete_all, list_elem_of_filter. tauto. }
  by rewrite Hnone.
Qed.

Lemma for_each_map_state {A} (g : Backend ev -> Backend ev) (f : A -> M (Backend ev) unit)
    (l : list A) st :
  (forall x s, f x (g s) = map_state g (f x s)) ->
  for_each l f (g st) = map_state g (for_each l f st).
Proof.
  intros Hf. revert st. induction l as [|x l IH]; intros st; simpl; [done|].
  unfold bind. rewrite Hf. destruct (f x st); simpl; [apply IH|done..].
Qed.

Lemma mem_remove_set_put_queue q k st :
  remove ev k (set_put_queue ev q st) = map_state (set_put_queue ev q) (remove ev k st).
Proof. unfold remove. simpl. by destruct (od_pop k (dict ev st)) as [[t d']|]. Qed.

(** The queue is no concern of [put_nonblocking]. *)
Lemma put_nonblocking_set_put_queue q k v st :
  put_nonblocking ev k v (set_put_queue ev q st)
  = map_state (set_put_queue ev q) (put_nonblocking ev k v st).
Proof.
  unfold put_nonblocking, bind, to_local, gets, acquire, evictor_update_on_put, modify,
    release, ret. simpl.
  destruct (update_lock ev st); [done|]. simpl.
  destruct (use_pin_memory ev st); simpl;
    destruct (update_on_put ev _ _ _) as [[ks status] e']; simpl;
    (destruct (decide (status = ILLEGAL)); [done|]);
    change (set_evictor ev e' (set_update_lock ev true (set_put_queue ev q st)))
      with (set_put_queue ev q (set_evictor ev e' (set_update_lock ev true st)));
    rewrite (for_each_map_state (set_put_queue ev q)) by apply mem_remove_set_put_queue;
    destruct (for_each ks (remove ev) _) as [[] s1|e s1|s1]; simpl; try done;
    by destruct (update_lock ev s1).
Qed.

Lemma mem_put_worker_loop_end q st :
  match put_worker_loop ev q st with
  | Exited _ s | Died _ _ s => put_thread_alive ev s = false
  | Idle _ _ | Stuck _ _ => True
  end.
Proof.
  revert st. induction q as [|[key value|] q IH]; intros st; simpl; [done| |done].
  destruct (put_nonblocking ev key value _); [apply IH|done..].
Qed.

Lemma mem_put_worker_loop_drains items st q0 :
  update_lock ev st = false ->
  all_admitted ev items st ->
  put_worker_loop ev (as_items items ++ [LocalBackendEndSignal]) (set_put_queue ev q0 st)
  = Exited ev (set_put_thread_alive ev false
                 (set_put_queue ev [] (state_of (sync_puts ev items st)))).
Proof.
  revert st q0. induction items as [|[k v] items IH]; intros st q0 Hlock Hall; [done|].
  destruct Hall as [Hadm Hrest]. simpl in Hrest.
  destruct (put_blocking ev k v st) as [[] st1|e st1|st1] eqn:Hput; [|done..].
  pose proof (MemoryFacts.mem_put_nonblocking_as_blocking ev k v st st1 Hlock Hadm Hput) as Hnb.
  pose proof (MemoryFacts.mem_put_blocking_lock ev k v st) as Hl. rewrite Hput in Hl.
  unfold as_items. cbn [map app put_worker_loop fst snd]. fold (@as_items Key items).
  change (set_put_queue ev (as_items items ++ [LocalBackendEndSignal])
            (set_put_queue ev q0 st))
    with (set_put_queue ev (as_items items ++ [LocalBackendEndSignal]) st).
  rewrite put_nonblocking_set_put_queue, Hnb. cbn [map_state].
  rewrite IH; [|congruence|done].
  unfold sync_puts. cbn [for_each fst snd put]. unfold bind. by rewrite Hput.
Qed.

(** X6: [close] on a running worker whose queue holds puts of which none
    is Rejected, with the mutex free: [close] returns, the worker has
    stopped, the queue is empty and the backend is otherwise the one that
    the same puts, done as blocking puts in the order they were queued,
    lead to. *)
Theorem mem_close_drains_admitted_queue items st :
  put_thread_alive ev st = true ->
  update_lock ev st = false ->
  put_queue ev st = as_items items ->
  all_admitted ev items st ->
  close ev st =
    Ok tt (set_put_thread_alive ev false
             (set_put_queue ev [] (state_of (sync_puts ev items st)))).
Proof.
  intros Halive Hlock Hq Hall. unfold close, bind, gets, modify, join, put_worker.
  rewrite Halive. simpl. rewrite Hq.
  by rewrite (mem_put_worker_loop_drains items st _ Hlock Hall).
Qed.

(** X7: a [close] that returned stopped the worker; a second [close],
    and the finalizer [__del__] after it, return at once and change
    nothing. *)
Theorem mem_close_twice st st' :
  close ev st = Ok tt st' ->
  close ev st' = Ok tt st' /\ __del__ ev st' = Ok tt st'.
Proof.
  intros Hclose. assert (Hdead : put_thread_alive ev st' = false).
  { revert Hclose. unfold close, bind, gets, modify, join, put_worker.
    destruct (put_thread_alive ev st) eqn:Halive; simpl.
    - match goal with |- context [put_worker_loop ev ?q ?s] =>
        pose proof (mem_put_worker_loop_end q s) as Hend;
        destruct (put_worker_loop ev q s) end; try done; by intros [= <-].
    - unfold ret. by intros [= <-]. }
  unfold __del__. split; by apply MemoryFacts.mem_close_stopped.
Qed.

(** X16: when the evictor admits the put and names distinct keys of the
    catalog, the blocking put returns: those keys are evicted in the order
    named, the payload, moved to [device], is stored under the key, and
    nothing else of the backend changes. *)
Theorem mem_put_blocking_result k v st ks status e' :
  update_on_put ev (dict ev st) (to v (device ev st)) (evictor ev st) = (ks, status, e') ->
  status ≠ ILLEGAL ->
  NoDup ks -> (forall x, x ∈ ks -> x ∈ keys (dict ev st)) ->
  put ev k v true st =
    Ok tt (set_dict ev (od_set k (to v (device ev st)) (delete_all ks (dict ev st)))
             (set_evictor ev e' st)).
Proof.
  intros Hdec Hadm Hnd Hin. simpl. rewrite MemoryFacts.mem_put_blocking_unfold. simpl.
  rewrite Hdec. rewrite decide_False by done.
  by rewrite MemoryFacts.evictions_total.
Qed.

End more.

Lemma mem_absent_key_witness :
  contains Scenario.mem_evictor "z" Scenario.mem_ab = Ok false Scenario.mem_ab /\
  get Scenario.mem_evictor "z" Scenario.mem_ab = Ok None Scenario.mem_ab /\
  remove Scenario.mem_evictor "z" Scenario.mem_ab = Raise KeyError Scenario.mem_ab.
Proof.
  apply (mem_absent_key Scenario.mem_evictor "z" Scenario.mem_ab).
  by_decide.
Defined.


Lemma mem_remove_takes_out_one_key_witness :
  exists st',
    remove Scenario.mem_evictor "a" Scenario.mem_ab = Ok tt st' /\
    keys (dict _ st') = filter (fun x => x ≠ "a") (keys (dict _ Scenario.mem_ab)) /\
    (forall k', k' ≠ "a" -> od_get k' (dict _ st') = od_get k' (dict _ Scenario.mem_ab)) /\
    contains Scenario.mem_evictor "a" st' = Ok false st' /\
    get Scenario.mem_evictor "a" st' = Ok None st'.
Proof.
  apply (mem_remove_takes_out_one_key Scenario.mem_evictor "a" Scenario.mem_ab).
  by_decide.
Defined.

Lemma mem_put_new_key_goes_last_witness :
  keys (dict _ (state_of (put Scenario.mem_evictor "c" Scenario.tiny true Scenario.mem_ab)))
  = ["a"; "b"; "c"].
Proof.
  destruct (mem_put_new_key_goes_last Scenario.mem_evictor "c" Scenario.tiny Scenario.mem_ab
              (state_of (put Scenario.mem_evictor "c" Scenario.tiny true Scenario.mem_ab))
              [] LEGAL tt) as [Hkeys _].
  - reflexivity.
  - discriminate.
  - left. by_decide.
  - vm_compute. reflexivity.
  - rewrite Hkeys. vm_compute. reflexivity.
Defined.

Lemma mem_put_stray_eviction_raises_witness :
  let st := set_dict stray_evictor [("a", Scenario.tiny)] (init stray_evictor "cpu" tt) in
  put stray_evictor "k" Scenario.small true st = Raise KeyError (set_dict _ [] st).
Proof.
  intros st.
  rewrite (mem_put_stray_eviction_raises stray_evictor "k" Scenario.small st ["a"] "stray" []
             LEGAL tt).
  - reflexivity.
  - reflexivity.
  - discriminate.
  - by_decide.
  - intros x Hx. exact Hx.
  - left. by_decide.
Defined.

Lemma mem_put_blocking_result_witness :
  put Scenario.mem_evictor "c" Scenario.other true
    (set_dict _ [("a", to Scenario.small "cpu"); ("b", to Scenario.small "cpu")] Scenario.mem0)
  = Ok tt (set_dict _ [("b", to Scenario.small "cpu"); ("c", to Scenario.other "cpu")]
             Scenario.mem0).
Proof.
  rewrite (mem_put_blocking_result Scenario.mem_evictor "c" Scenario.other _ ["a"] LEGAL tt).
  - reflexivity.
  - reflexivity.
  - discriminate.
  - by_decide.
  - intros x Hx. apply list_elem_of_singleton in Hx. subst x. by_decide.
Defined.

(** Two admitted puts in the queue. *)
Definition two_queued : Backend Scenario.mem_evictor :=
  state_of (put Scenario.mem_evictor "b" Scenario.tiny false
    (state_of (put Scenario.mem_evictor "a" Scenario.tiny false Scenario.mem0))).

Lemma mem_close_drains_admitted_queue_witness :
  close Scenario.mem_evictor two_queued
  = Ok tt (set_put_thread_alive _ false Scenario.mem_ab).
Proof.
  rewrite (mem_close_drains_admitted_queue Scenario.mem_evictor
             [("a", Scenario.tiny); ("b", Scenario.tiny)] two_queued).
  - reflexivity.
  - reflexivity.
  - reflexivity.
  - reflexivity.
  - simpl. repeat split; discriminate.
Defined.

Lemma mem_close_twice_witness :
  let st' := set_put_thread_alive _ false Scenario.mem_ab in
  close Scenario.mem_evictor st' = Ok tt st' /\ __del__ Scenario.mem_evictor st' = Ok tt st'.
Proof.
  intros st'. apply (mem_close_twice Scenario.mem_evictor two_queued st'). reflexivity.
Defined.

End MemoryMore.


(** * Further properties of the disk backend *)

Module DiskMore.
Import LMCLocalDiskBackend.

(** [__del__]: the finalizer closes the backend. *)
Definition __del__ {Key : Type} `{EqDecision Key} (to_string : Key -> string)
    (ev : Evictor Key string) : M (Backend ev) unit := close to_string ev.

(** The puts of [items], one blocking put after the other. *)
Definition sync_puts {Key : Type} `{EqDecision Key} (to_string : Key -> string)
    (ev : Evictor Key string) (items : list (Key * Tensor)) : M (Backend ev) unit :=
  for_each items (fun kv => put to_string ev kv.1 kv.2 true).

Definition as_items {Key : Type} (items : list (Key * Tensor)) : list (@QItem Key) :=
  map (fun kv => Item kv.1 kv.2) items.

(** A disk evictor that measures payloads: a budget of four elements,
    every stored file counted as two. *)
Definition sized_evictor : Evictor string string :=
  LRU.LRUEvictor 4 Scenario.elements (fun _ => 2%N).

Section more.
Context {Key : Type} `{EqDecision Key}.
Context (to_string : Key -> string).
Context (ev : Evictor Key string).
Implicit Types (st : Backend ev) (k : Key) (v : Tensor) (p : string).

Abbreviation key_path := (_key_to_path to_string ev).

(** The state after [update_on_get]. *)
Definition accessed k st : Backend ev :=
  set_evictor ev (update_on_get ev k (dict ev st) (evictor ev st)).2
    (set_dict ev (update_on_get ev k (dict ev st) (evictor ev st)).1 st).

Lemma remove_Ok_state k st st' :
  remove ev k st = Ok tt st' ->
  exists p, od_get k (dict ev st) = Some p /\ is_Some (files ev st !! p) /\
            update_lock ev st = false /\
            st' = set_files ev (delete p (files ev st))
                    (set_dict ev (od_delete k (dict ev st)) st).
Proof.
  unfold remove, bind, acquire, dict_getitem, modify, release, os_remove.
  destruct (update_lock ev st) eqn:Hlock; [done|]. simpl.
  destruct (od_get k (dict ev st)) as [p|]; simpl; [|done].
  destruct (files ev st !! p) eqn:Hf; simpl; [|done]. intros [= <-].
  exists p. repeat split; eauto. destruct st; simpl in *. by subst.
Qed.

(** X8: for a key that is not in the catalog, [contains] answers [False]
    and [get] returns [None], without a change to the backend, without a
    look at the files and without the mutex. *)
Theorem disk_absent_key k st :
  k ∉ keys (dict ev st) ->
  contains ev k st = Ok false st /\ get ev k st = Ok None st.
Proof.
  intros Hk. apply od_get_None in Hk.
  unfold get, contains, bind, gets, od_contains. rewrite Hk. split; reflexivity.
Qed.

(** X9: [remove] of a key that is not in the catalog raises [KeyError]
    after it has taken the mutex, and the mutex stays held.  From then on
    no [remove] and no admitted blocking put comes back: each waits for
    the mutex. *)
Theorem disk_remove_absent_leaves_mutex_held k st :
  update_lock ev st = false ->
  k ∉ keys (dict ev st) ->
  let held := set_update_lock ev true st in
  remove ev k st = Raise KeyError held /\
  (forall k', remove ev k' held = Block held) /\
  (forall k' v,
      (update_on_put ev (dict ev held) v (evictor ev held)).1.2 ≠ ILLEGAL ->
      exists s, put to_string ev k' v true held = Block s).
Proof.
  intros Hlock Hk held. apply od_get_None in Hk. split; [|split].
  - unfold remove, bind, acquire, dict_getitem. rewrite Hlock. simpl. by rewrite Hk.
  - intros k'. reflexivity.
  - intros k' v Hadm. simpl. rewrite DiskFacts.disk_put_blocking_unfold. simpl in *.
    destruct (update_on_put ev _ _ _) as [[ks status] e']. simpl in Hadm.
    rewrite decide_False by done. destruct ks as [|k0 ks]; simpl; eauto.
Qed.

(** X10: [remove] of a key whose entry names an existing file, with the
    mutex free: it returns, the entry is out of the catalog, the file is
    deleted, the mutex is free again and nothing else has changed;
    afterwards [contains] answers [False] and [get] returns [None]. *)
Theorem disk_remove_deletes_entry_and_file k p f st :
  update_lock ev st = false ->
  od_get k (dict ev st) = Some p ->
  files ev st !! p = Some f ->
  let st' := set_files ev (delete p (files ev st))
               (set_dict ev (od_delete k (dict ev st)) st) in
  remove ev k st = Ok tt st' /\
  contains ev k st' = Ok false st' /\
  get ev k st' = Ok None st'.
Proof.
  intros Hlock Hk Hf st'. split; [|split].
  - unfold remove, bind, acquire, dict_getitem, modify, release, os_remove.
    rewrite Hlock. simpl. rewrite Hk. simpl. rewrite Hf. f_equal.
    subst st'. destruct st; simpl in *. by subst.
  - unfold contains, gets, od_contains. simpl. by rewrite od_get_delete_eq.
  - unfold get, bind, contains, gets, od_contains. simpl. by rewrite od_get_delete_eq.
Qed.

(** X11: a [get] of a key that is in the catalog takes no mutex, lets the
    evictor note the access first and then opens the file the entry
    names: a missing file is a [FileNotFoundError], a file without the
    field ["kv_chunk"] an error of the reader, and otherwise the field
    comes back as a payload on [dst_device].  In all three cases the
    access has been noted. *)
Theorem disk_get_hit_reads_file k p st :
  od_get k (dict ev st) = Some p ->
  get ev k st =
    match files ev st !! p with
    | None => Raise FileNotFoundError (accessed k st)
    | Some f =>
        match f !! "kv_chunk" with
        | None => Raise SafetensorError (accessed k st)
        | Some bytes =>
            Ok (Some {| data := bytes; device_of := dst_device ev st |}) (accessed k st)
        end
    end.
Proof.
  intros Hk. unfold get, bind, contains, gets, od_contains.
  rewrite Hk, bool_decide_eq_true_2 by eauto. simpl.
  unfold dict_getitem. rewrite Hk. unfold evictor_update_on_get, accessed.
  destruct (update_on_get ev k _ _) as [d' e']. simpl.
  unfold safe_open_get_tensor, ret. simpl.
  destruct (files ev st !! p) as [f|]; [|done]. by destruct (f !! "kv_chunk").
Qed.

(** Evictions only delete files. *)
Lemma evictions_keep_missing ks st st' q :
  for_each ks (remove ev) st = Ok tt st' ->
  files ev st !! q = None -> files ev st' !! q = None.
Proof.
  revert st. induction ks as [|k ks IH]; intros st; simpl.
  - unfold ret. by intros [= <-].
  - unfold bind. destruct (remove ev k st) as [[] s1|e s1|s1] eqn:Hrm; try discriminate.
    intros Hrest Hq. apply (IH s1 Hrest).
    apply remove_Ok_state in Hrm as (p & _ & _ & _ & ->). simpl.
    destruct (decide (p = q)) as [->|Hne]; [apply lookup_delete_eq|].
    by rewrite lookup_delete_ne.
Qed.

(** The file of every evicted entry is deleted. *)
Lemma evictions_delete_files ks st st' k p :
  for_each ks (remove ev) st = Ok tt st' ->
  k ∈ ks -> od_get k (dict ev st) = Some p ->
  files ev st' !! p = None.
Proof.
  revert st. induction ks as [|k0 ks IH]; intros st; simpl.
  - intros _ Hk. by apply elem_of_nil in Hk.
  - unfold bind. destruct (remove ev k0 st) as [[] s1|e s1|s1] eqn:Hrm; try discriminate.
    intros Hrest Hk Hp. apply remove_Ok_state in Hrm as (p0 & Hp0 & _ & _ & ->).
    destruct (decide (k = k0)) as [->|Hne].
    + apply (evictions_keep_missing ks _ _ p Hrest). simpl.
      rewrite Hp in Hp0. injection Hp0 as <-. apply lookup_delete_eq.
    + apply elem_of_cons in Hk as [Hk|Hk]; [done|].
      apply (IH _ Hrest Hk). simpl. rewrite od_get_delete_ne by done. exact Hp.
Qed.

(** X12: an admitted blocking put under a key that is new to the catalog,
    or that is itself among the evicted keys, puts the key at the most
    recently used end, behind the keys that were not evicted.  Every other
    evicted key is out of the catalog, and the file its entry named is
    deleted unless it is the very file the put writes. *)
Theorem disk_put_new_key_goes_last k v st st' ks status e' :
  update_on_put ev (dict ev st) v (evictor ev st) = (ks, status, e') ->
  status ≠ ILLEGAL ->
  k ∉ keys (dict ev st) \/ k ∈ ks ->
  put to_string ev k v true st = Ok tt st' ->
  keys (dict ev st') = filter (fun x => x ∉ ks) (keys (dict ev st)) ++ [k] /\
  od_get k (dict ev st') = Some (key_path k st) /\
  (forall k', k' ∈ ks -> k' ≠ k -> od_get k' (dict ev st') = None) /\
  (forall k' p', k' ∈ ks -> od_get k' (dict ev st) = Some p' -> p' ≠ key_path k st ->
                 files ev st' !! p' = None).
Proof.
  intros Hdec Hadm Hnew Hput. simpl in Hput.
  pose proof (DiskFacts.disk_put_blocking_admitted to_string ev k v st st' ks status e'
                Hdec Hadm Hput) as (Hd & _ & _).
  assert (Hgone : forall x, x ∈ ks -> x ∉ keys (delete_all ks (dict ev st))).
  { intros x Hx. rewrite keys_delete_all, list_elem_of_filter. tauto. }
  rewrite Hd. split; [|split; [|split]].
  - rewrite keys_set_absent; [by rewrite keys_delete_all|].
    destruct Hnew as [Hnew|Hnew]; [|by apply Hgone].
    rewrite keys_delete_all, list_elem_of_filter. tauto.
  - apply od_get_set_eq.
  - intros k' Hk' Hne. rewrite od_get_set_ne by done. apply od_get_None. by apply Hgone.
  - intros k' p' Hk' Hp' Hne. revert Hput.
    rewrite DiskFacts.disk_put_blocking_unfold. simpl. rewrite Hdec.
    rewrite decide_False by done.
    destruct (for_each ks (remove ev) _) as [[] s1|e s1|s1] eqn:Hev; try discriminate.
    destruct (update_lock ev s1); [discriminate|]. intros [= <-]. simpl.
    rewrite lookup_insert_ne by done.
    by apply (evictions_delete_files ks _ _ k' p' Hev).
Qed.

Lemma for_each_set_put_queue {A} (f : A -> M (Backend ev) unit) q (l : list A) st :
  (forall x s, f x (set_put_queue ev q s) = map_state (set_put_queue ev q) (f x s)) ->
  for_each l f (set_put_queue ev q st) = map_state (set_put_queue ev q) (for_each l f st).
Proof.
  intros Hf. revert st. induction l as [|x l IH]; intros st; simpl; [done|].
  unfold bind. rewrite Hf. destruct (f x st); simpl; [apply IH|done..].
Qed.

Lemma disk_remove_set_put_queue q k st :
  remove ev k (set_put_queue ev q st) = map_state (set_put_queue ev q) (remove ev k st).
Proof.
  unfold remove, bind, acquire, dict_getitem, modify, release, os_remove. simpl.
  destruct (update_lock ev st); [done|]. simpl.
  destruct (od_get k (dict ev st)) as [p|]; simpl; [|done].
  by destruct (files ev st !! p).
Qed.

(** The queue is no concern of [put_blocking]. *)
Lemma put_blocking_set_put_queue q k v st :
  put_blocking to_string ev k v (set_put_queue ev q st)
  = map_state (set_put_queue ev q) (put_blocking to_string ev k v st).
Proof.
  rewrite !DiskFacts.disk_put_blocking_unfold. simpl.
  destruct (update_on_put ev _ _ _) as [[ks status] e'].
  destruct (decide (status = ILLEGAL)); [done|].
  change (set_evictor ev e' (set_put_queue ev q st))
    with (set_put_queue ev q (set_evictor ev e' st)).
  rewrite for_each_set_put_queue by apply disk_remove_set_put_queue.
  destruct (for_each ks (remove ev) _) as [[] s1|e s1|s1]; simpl; try done.
  by destruct (update_lock ev s1).
Qed.

Lemma disk_put_worker_loop_end q st :
  match put_worker_loop to_string ev q st with
  | Exited _ s | Died _ _ s => put_thread_alive ev s = false
  | Idle _ _ | Stuck _ _ => True
  end.
Proof.
  revert st. induction q as [|[key value|] q IH]; intros st; simpl; [done| |done].
  destruct (put_blocking to_string ev key value _); [apply IH|done..].
Qed.

Lemma disk_put_worker_loop_drains items st st_f q0 :
  sync_puts to_string ev items st = Ok tt st_f ->
  put_worker_loop to_string ev (as_items items ++ [LocalBackendEndSignal])
    (set_put_queue ev q0 st)
  = Exited ev (set_put_thread_alive ev false (set_put_queue ev [] st_f)).
Proof.
  revert st q0. induction items as [|[k v] items IH]; intros st q0.
  - unfold sync_puts. simpl. unfold ret. by intros [= <-].
  - unfold sync_puts. cbn [for_each fst snd put]. unfold bind.
    destruct (put_blocking to_string ev k v st) as [[] st1|e st1|st1] eqn:Hput; [|done..].
    intros Hrest.
    unfold as_items. cbn [map app put_worker_loop fst snd]. fold (@as_items Key items).
    change (set_put_queue ev (as_items items ++ [LocalBackendEndSignal])
              (set_put_queue ev q0 st))
      with (set_put_queue ev (as_items items ++ [LocalBackendEndSignal]) st).
    rewrite put_blocking_set_put_queue, Hput. cbn [map_state]. by apply IH.
Qed.

(** X13: [close] on a running worker drains the queue: when the queued
    puts, done as blocking puts in the order they were queued, all return
    (admitted or Rejected), [close] returns with the backend they lead
    to, the queue empty and the worker stopped. *)
Theorem disk_close_drains_queue items st st_f :
  put_thread_alive ev st = true ->
  put_queue ev st = as_items items ->
  sync_puts to_string ev items st = Ok tt st_f ->
  close to_string ev st =
    Ok tt (set_put_thread_alive ev false (set_put_queue ev [] st_f)).
Proof.
  intros Halive Hq Hsync. unfold close, bind, gets, modify, join, put_worker.
  rewrite Halive. simpl. rewrite Hq.
  by rewrite (disk_put_worker_loop_drains items st st_f _ Hsync).
Qed.

(** X14: a [close] that returned stopped the worker; a second [close],
    and the finalizer [__del__] after it, return at once and change
    nothing. *)
Theorem disk_close_twice st st' :
  close to_string ev st = Ok tt st' ->
  close to_string ev st' = Ok tt st' /\ __del__ to_string ev st' = Ok tt st'.
Proof.
  intros Hclose. assert (Hdead : put_thread_alive ev st' = false).
  { revert Hclose. unfold close, bind, gets, modify, join, put_worker.
    destruct (put_thread_alive ev st) eqn:Halive; simpl.
    - match goal with |- context [put_worker_loop to_string ev ?q ?s] =>
        pose proof (disk_put_worker_loop_end q s) as Hend;
        destruct (put_worker_loop to_string ev q s) end; try done; by intros [= <-].
    - unfold ret. by intros [= <-]. }
  unfold __del__. split; by apply DiskFacts.disk_close_stopped.
Qed.

(** X15: when the put at the head of the queue raises in the worker, the
    worker thread ends there: [close] still returns normally, the
    exception reaches nobody, and the puts queued behind it (and the End
    Signal) stay in the queue and are never applied. *)
Theorem disk_worker_failure_drops_rest k v q e st st1 :
  put_thread_alive ev st = true ->
  put_queue ev st = Item k v :: q ->
  put to_string ev k v true st = Raise e st1 ->
  close to_string ev st =
    Ok tt (set_put_thread_alive ev false
             (set_put_queue ev (q ++ [LocalBackendEndSignal]) st1)).
Proof.
  intros Halive Hq Hput. simpl in Hput.
  unfold close, bind, gets, modify, join, put_worker.
  rewrite Halive. simpl. rewrite Hq. cbn [app put_worker_loop].
  change (set_put_queue ev (q ++ [LocalBackendEndSignal])
            (set_put_queue ev (Item k v :: q ++ [LocalBackendEndSignal]) st))
    with (set_put_queue ev (q ++ [LocalBackendEndSignal]) st).
  by rewrite put_blocking_set_put_queue, Hput.
Qed.

End more.

Lemma disk_absent_key_witness :
  contains Scenario.disk_evictor "z" Scenario.disk_ab = Ok false Scenario.disk_ab /\
  get Scenario.disk_evictor "z" Scenario.disk_ab = Ok None Scenario.disk_ab.
Proof.
  apply (disk_absent_key Scenario.disk_evictor "z" Scenario.disk_ab). by_decide.
Defined.

Lemma disk_remove_absent_leaves_mutex_held_witness :
  let held := set_update_lock Scenario.disk_evictor true Scenario.disk_ab in
  remove Scenario.disk_evictor "z" Scenario.disk_ab = Raise KeyError held /\
  remove Scenario.disk_evictor "a" held = Block held /\
  exists s, put Scenario.canonical Scenario.disk_evictor "c" Scenario.small true held = Block s.
Proof.
  intros held.
  destruct (disk_remove_absent_leaves_mutex_held Scenario.canonical Scenario.disk_evictor
              "z" Scenario.disk_ab) as (Hrm & Hnext & Hput).
  - reflexivity.
  - by_decide.
  - split; [exact Hrm|]. split; [apply Hnext|]. apply Hput. discriminate.
Defined.

Lemma disk_remove_deletes_entry_and_file_witness :
  exists st',
    remove Scenario.disk_evictor "a" Scenario.disk_ab = Ok tt st' /\
    files _ st' !! "/tmp/cache/a.pt" = None /\
    contains Scenario.disk_evictor "a" st' = Ok false st' /\
    get Scenario.disk_evictor "a" st' = Ok None st'.
Proof.
  destruct (disk_remove_deletes_entry_and_file Scenario.disk_evictor "a" "/tmp/cache/a.pt"
              (DiskFacts.saved Scenario.tiny) Scenario.disk_ab) as (Hrm & Hc & Hg).
  - reflexivity.
  - reflexivity.
  - vm_compute. reflexivity.
  - eexists. split; [exact Hrm|]. split; [|split; [exact Hc | exact Hg]].
    vm_compute. reflexivity.
Defined.

Lemma disk_get_hit_reads_file_witness :
  get Scenario.disk_evictor "a" Scenario.disk_ab =
    Ok (Some {| data := [7%Z]; device_of := "cuda" |})
       (accessed Scenario.disk_evictor "a" Scenario.disk_ab).
Proof.
  rewrite (disk_get_hit_reads_file Scenario.disk_evictor "a" "/tmp/cache/a.pt"
             Scenario.disk_ab).
  - vm_compute. reflexivity.
  - reflexivity.
Defined.

Lemma disk_put_new_key_goes_last_witness :
  keys (dict _ (state_of (put Scenario.canonical Scenario.disk_evictor "c" Scenario.tiny true
                            Scenario.disk_ab))) = ["a"; "b"; "c"].
Proof.
  destruct (disk_put_new_key_goes_last Scenario.canonical Scenario.disk_evictor
              "c" Scenario.tiny Scenario.disk_ab
              (state_of (put Scenario.canonical Scenario.disk_evictor "c" Scenario.tiny true
                           Scenario.disk_ab))
              [] LEGAL tt) as [Hkeys _].
  - reflexivity.
  - discriminate.
  - left. by_decide.
  - vm_compute. reflexivity.
  - rewrite Hkeys. vm_compute. reflexivity.
Defined.

(** A queue whose first put is Rejected (five elements against a budget
    of four) and whose second is admitted. *)
Definition sized0 : Backend sized_evictor := init sized_evictor "/tmp/cache/" ∅ tt.
Definition sized_queued : Backend sized_evictor :=
  state_of (put Scenario.canonical sized_evictor "k2" Scenario.small false
    (state_of (put Scenario.canonical sized_evictor "k1" Scenario.big false sized0))).
Definition sized_drained : Backend sized_evictor :=
  set_put_thread_alive _ false
    (state_of (put Scenario.canonical sized_evictor "k2" Scenario.small true sized0)).

Lemma disk_close_drains_queue_witness :
  close Scenario.canonical sized_evictor sized_queued = Ok tt sized_drained /\
  od_get "k1" (dict _ sized_drained) = None /\
  od_get "k2" (dict _ sized_drained) = Some "/tmp/cache/k2.pt".
Proof.
  split; [|split; vm_compute; reflexivity].
  rewrite (disk_close_drains_queue Scenario.canonical sized_evictor
             [("k1", Scenario.big); ("k2", Scenario.small)] sized_queued
             (set_put_queue _ (put_queue _ sized_queued)
                (state_of (put Scenario.canonical sized_evictor "k2" Scenario.small true
                             sized0)))).
  - vm_compute. reflexivity.
  - reflexivity.
  - reflexivity.
  - vm_compute. reflexivity.
Defined.

Lemma disk_close_twice_witness :
  close Scenario.canonical sized_evictor sized_drained = Ok tt sized_drained /\
  __del__ Scenario.canonical sized_evictor sized_drained = Ok tt sized_drained.
Proof.
  apply (disk_close_twice Scenario.canonical sized_evictor sized_queued sized_drained).
  vm_compute. reflexivity.
Defined.

(** The keys "a/b" and "a-b" share a file.  After the eviction of "a/b"
    the entry of "a-b" names a file that is gone; the queue holds a put
    that evicts "a-b", and one more put behind it. *)
Definition shared_file : Backend Scenario.disk_evictor :=
  state_of (sync_puts Scenario.canonical Scenario.disk_evictor
              [("a/b", Scenario.tiny); ("a-b", Scenario.tiny); ("c", Scenario.tiny);
               ("d", Scenario.tiny)] Scenario.disk0).
Definition shared_file_queued : Backend Scenario.disk_evictor :=
  state_of (put Scenario.canonical Scenario.disk_evictor "f" Scenario.tiny false
    (state_of (put Scenario.canonical Scenario.disk_evictor "e" Scenario.tiny false
                 shared_file))).

Lemma disk_worker_failure_drops_rest_witness :
  exists st',
    close Scenario.canonical Scenario.disk_evictor shared_file_queued = Ok tt st' /\
    put_queue _ st' = [Item "f" Scenario.tiny; LocalBackendEndSignal] /\
    keys (dict _ st') = ["c"; "d"].
Proof.
  eexists. split; [|split].
  - apply (disk_worker_failure_drops_rest Scenario.canonical Scenario.disk_evictor
             "e" Scenario.tiny [Item "f" Scenario.tiny] FileNotFoundError shared_file_queued
             (state_of (put Scenario.canonical Scenario.disk_evictor "e" Scenario.tiny true
                          shared_file_queued))).
    + reflexivity.
    + reflexivity.
    + vm_compute. reflexivity.
  - reflexivity.
  - vm_compute. reflexivity.
Defined.

End DiskMore.


(** * Further properties of the compactor registry *)

Module RegistryMore.
Import LMCacheCompactorBuilder.

(** The class a supported policy name selects. *)
Definition class_of_name (compactor_type : string) : CompactorClass :=
  if String.eqb compactor_type "H2O" then H2OCompactor else SinkCompactor.

(** The registry after the class attribute was first bound: no instance
    yet, then any number of [get_or_create] calls. *)
Definition reachable (r : Registry) : Prop := later empty_registry r.

(** Every registered instance was allocated before [next_oid], and two
    ids never hold instances of the same identity. *)
Definition distinct_instances (r : Registry) : Prop :=
  (forall id c, _instances r !! id = Some c -> oid c < next_oid r) /\
  (forall id1 id2 c1 c2, id1 ≠ id2 ->
     _instances r !! id1 = Some c1 -> _instances r !! id2 = Some c2 -> oid c1 ≠ oid c2).

(** X17: for an id that is not registered and a supported policy name,
    [get_or_create] constructs one new instance of the class the name
    selects, registers it under the id and returns it; [get] of the id
    then returns that instance and [get] of every other id answers as
    before. *)
Theorem registry_creates_requested_class r instance_id compactor_type :
  _instances r !! instance_id = None ->
  supported compactor_type ->
  let c := {| cls_of := class_of_name compactor_type; oid := next_oid r |} in
  let r' := {| _instances := <[instance_id := c]> (_instances r);
               next_oid := S (next_oid r) |} in
  get_or_create instance_id compactor_type r = Ok c r' /\
  get instance_id r' = Ok (Some c) r' /\
  (forall id', id' ≠ instance_id -> get id' r' = Ok (_instances r !! id') r').
Proof.
  intros Hnone Hty c r'. split; [|split].
  - unfold get_or_create, bind, gets.
    rewrite bool_decide_eq_false_2 by (rewrite Hnone; intros [? [=]]). simpl.
    subst c r'. unfold class_of_name.
    destruct Hty as [-> | ->]; reflexivity.
  - unfold get, gets. simpl. by rewrite lookup_insert_eq.
  - intros id' Hne. unfold get, gets. simpl. by rewrite lookup_insert_ne.
Qed.

Lemma registry_creates_requested_class_witness :
  get_or_create "y" "Sink" empty_registry
  = Ok {| cls_of := SinkCompactor; oid := 0 |}
       {| _instances := {["y" := {| cls_of := SinkCompactor; oid := 0 |}]}; next_oid := 1 |}.
Proof.
  apply (registry_creates_requested_class empty_registry "y" "Sink").
  - reflexivity.
  - right. reflexivity.
Defined.

Lemma get_or_create_distinct r id ty :
  distinct_instances r -> distinct_instances (state_of (get_or_create id ty r)).
Proof.
  intros [Hlt Hinj]. unfold get_or_create, bind, gets.
  destruct (_instances r !! id) as [c0|] eqn:Hc0.
  { rewrite bool_decide_eq_true_2 by eauto. simpl. by rewrite Hc0. }
  rewrite bool_decide_eq_false_2 by (intros [? [=]]). simpl.
  assert (Hnew : forall cl,
    distinct_instances
      {| _instances := <[id := {| cls_of := cl; oid := next_oid r |}]> (_instances r);
         next_oid := S (next_oid r) |}).
  { intros cl. split; simpl.
    - intros id' c. rewrite lookup_insert. case_decide.
      + intros [= <-]. simpl. lia.
      + intros Hc. apply Hlt in Hc. lia.
    - intros id1 id2 c1 c2 Hne. rewrite !lookup_insert.
      repeat case_decide; subst; try done.
      + intros [= <-] Hc2. apply Hlt in Hc2. simpl. lia.
      + intros Hc1 [= <-]. apply Hlt in Hc1. simpl. lia.
      + by apply Hinj. }
  destruct (String.eqb ty "H2O"); [apply Hnew|].
  destruct (String.eqb ty "Sink"); [apply Hnew|]. simpl. by split.
Qed.

(** X18: in every registry that [get_or_create] calls have built from the
    empty one, two different ids never hold the same instance: each
    registered id has an object of its own. *)
Theorem registry_ids_have_own_instances r id1 id2 c1 c2 :
  reachable r ->
  id1 ≠ id2 ->
  _instances r !! id1 = Some c1 ->
  _instances r !! id2 = Some c2 ->
  c1 ≠ c2.
Proof.
  intros Hreach Hne H1 H2 Heq.
  assert (Hkeep : forall r0 r', later r0 r' -> distinct_instances r0 -> distinct_instances r').
  { induction 1 as [|r1 r2 id ty _ IH]; intros H0; [done|].
    by apply get_or_create_distinct, IH. }
  assert (Hinv : distinct_instances r).
  { apply (Hkeep empty_registry r Hreach).
    split; intros *; simpl; rewrite ?lookup_empty; done. }
  destruct Hinv as [_ Hinj]. apply (Hinj id1 id2 c1 c2 Hne H1 H2). by rewrite Heq.
Qed.

Lemma registry_ids_have_own_instances_witness :
  let r := state_of (get_or_create "y" "H2O"
             (state_of (get_or_create "x" "H2O" empty_registry))) in
  exists c1 c2,
    _instances r !! "x" = Some c1 /\ _instances r !! "y" = Some c2 /\ c1 ≠ c2.
Proof.
  intros r.
  exists {| cls_of := H2OCompactor; oid := 0 |}, {| cls_of := H2OCompactor; oid := 1 |}.
  assert (Hx : _instances r !! "x" = Some {| cls_of := H2OCompactor; oid := 0 |})
    by (vm_compute; reflexivity).
  assert (Hy : _instances r !! "y" = Some {| cls_of := H2OCompactor; oid := 1 |})
    by (vm_compute; reflexivity).
  split; [exact Hx|]. split; [exact Hy|].
  apply (registry_ids_have_own_instances r "x" "y" _ _); [|discriminate|exact Hx|exact Hy].
  apply later_call, later_call, later_now.
Defined.

End RegistryMore.
